(** * The fractal distance evaluator and the modulation tables of
      [src/hooks/useAppStore.ts]

    The development embeds [getPlanet1Distance] together with the two
    module-level [Float32Array] scratch buffers it works on, the default
    modulation list of [defaultSoundConfig] and the visible part of
    [MOD_RANGES].

    JavaScript numbers are IEEE-754 binary64 values; they are modelled by
    the executable specification of floating-point arithmetic of the
    standard library ([SpecFloat], precision 53, [emax] 1024).  A store
    into a [Float32Array] rounds to binary32 (precision 24, [emax] 128). *)

From Stdlib Require Import ZArith Bool List Lia.
From Stdlib Require Import Floats.SpecFloat.
From stdpp Require Import base option list vector gmap strings.

(** ** JavaScript numbers *)

Module Num.

Abbreviation number := spec_float.

Definition prec : Z := 53.
Definition emax : Z := 1024.

Definition NaN : number := S754_nan.
Definition pzero : number := S754_zero false.
Definition pinf : number := S754_infinity false.
Definition ninf : number := S754_infinity true.

Definition add : number -> number -> number := SFadd prec emax.
Definition sub : number -> number -> number := SFsub prec emax.
Definition mul : number -> number -> number := SFmul prec emax.
Definition neg : number -> number := SFopp.

(** The relational operators of the language: every comparison with
    [NaN] is false, the two zeros are equal. *)
Definition ltb : number -> number -> bool := SFltb.
Definition leb : number -> number -> bool := SFleb.
Definition gtb (a b : number) : bool := ltb b a.
Definition geb (a b : number) : bool := leb b a.

Definition is_nan (a : number) : bool :=
  match a with S754_nan => true | _ => false end.

Definition is_finite (a : number) : bool :=
  match a with S754_zero _ | S754_finite _ _ _ => true | _ => false end.

(** The number nearest to the integer [z]. *)
Definition of_Z (z : Z) : number := binary_normalize prec emax z 0 false.

(** The number nearest to the fraction [p / q] ([q] positive): what a
    decimal literal denotes. *)
Definition of_frac (p : Z) (q : positive) : number :=
  match p with
  | Z0 => pzero
  | Zpos p' =>
      let '(mz, ez, lz) := SFdiv_core_binary prec emax (Zpos p') 0 (Zpos q) 0 in
      binary_round_aux prec emax false mz ez lz
  | Zneg p' =>
      let '(mz, ez, lz) := SFdiv_core_binary prec emax (Zpos p') 0 (Zpos q) 0 in
      binary_round_aux prec emax true mz ez lz
  end.

(** [Math.abs]. *)
Definition abs : number -> number := SFabs.

(** [Math.max] of two arguments and [Math.min] of three, as the
    language defines them: [NaN] as soon as one argument is [NaN], and
    [+0] larger than [-0]. *)
Definition max_step (highest x : number) : number :=
  match highest, x with
  | S754_nan, _ | _, S754_nan => S754_nan
  | S754_zero true, S754_zero false => x
  | _, _ => if ltb highest x then x else highest
  end.

Definition min_step (lowest x : number) : number :=
  match lowest, x with
  | S754_nan, _ | _, S754_nan => S754_nan
  | S754_zero false, S754_zero true => x
  | _, _ => if ltb x lowest then x else lowest
  end.

Definition max (a b : number) : number := max_step (max_step ninf a) b.

Definition min3 (a b c : number) : number :=
  min_step (min_step (min_step pinf a) b) c.

(** The remainder operator [%]: the result has the sign of the dividend
    and is computed exactly (truncating division). *)
Definition rem (n d : number) : number :=
  match n, d with
  | S754_nan, _ | _, S754_nan => S754_nan
  | S754_infinity _, _ => S754_nan
  | _, S754_zero _ => S754_nan
  | _, S754_infinity _ => n
  | S754_zero _, _ => n
  | S754_finite sn mn en, S754_finite _ md ed =>
      let ez := Z.min en ed in
      let r := Z.rem (Zpos (fst (shl_align mn en ez)))
                     (Zpos (fst (shl_align md ed ez))) in
      binary_normalize prec emax (cond_Zopp sn r) ez sn
  end.

(** The value a [Float32Array] cell holds after [v] is stored in it:
    [v] rounded to binary32 (ties to even), read back as a number. *)
Definition fround (v : number) : number :=
  match v with
  | S754_finite s m e =>
      match binary_round 24 128 s m e with
      | S754_finite s' m' e' => binary_round prec emax s' m' e'
      | r => r
      end
  | _ => v
  end.

End Num.

Declare Scope num_scope.
Delimit Scope num_scope with num.
Bind Scope num_scope with spec_float.
Infix "+" := Num.add : num_scope.
Infix "-" := Num.sub : num_scope.
Infix "*" := Num.mul : num_scope.
Infix "%%" := Num.rem (at level 40, left associativity) : num_scope.
Notation "- x" := (Num.neg x) : num_scope.
Infix ">?" := Num.gtb (at level 70, no associativity) : num_scope.
Infix "<=?" := Num.leb (at level 70, no associativity) : num_scope.
Infix "<?" := Num.ltb (at level 70, no associativity) : num_scope.

(** ** [Math.sin] and [Math.cos]

    The two library functions are supplied by the host engine, and the
    language only asks for an approximation: the evaluator is
    parameterised by them. *)

Record MathLib := {
  Math_sin : spec_float -> spec_float;
  Math_cos : spec_float -> spec_float
}.

(** A reference instance, in fixed point with 192 fractional bits: the
    argument is reduced to [[-pi, pi]] and the Taylor series summed.  It
    returns the values the language fixes ([NaN] outside the finite
    numbers, [sin (+-0) = +-0], [cos (+-0) = 1]). *)
Module RefMath.

Local Open Scope Z_scope.

Definition frac_bits : Z := 192.

Definition one_fx : Z := Eval vm_compute in 2 ^ frac_bits.

Definition pi_fx : Z :=
  Eval vm_compute in
    (314159265358979323846264338327950288419716939937510582097494
       * 2 ^ frac_bits) / 10 ^ 59.

Definition to_fx (x : spec_float) : Z :=
  match x with
  | S754_finite s m e =>
      cond_Zopp s (Z.shiftl (Zpos m) (e + frac_bits))
  | _ => 0
  end.

Definition reduce (x : Z) : Z := (x + pi_fx) mod (2 * pi_fx) - pi_fx.

Definition mul_fx (a b : Z) : Z := Z.shiftr (a * b) frac_bits.

Fixpoint series (n : nat) (k term acc x2 : Z) : Z :=
  match n with
  | O => acc
  | S n' =>
      let term' := - mul_fx term x2 / ((k + 1) * (k + 2)) in
      series n' (k + 2) term' (acc + term') x2
  end.

Definition sin_fx (x : Z) : Z :=
  let r := reduce x in series 40 1 r r (mul_fx r r).

Definition cos_fx (x : Z) : Z :=
  let r := reduce x in series 40 0 one_fx one_fx (mul_fx r r).

Definition tiny (x : Z) : bool := Z.abs x <? 2 ^ 128.

Definition sin (x : spec_float) : spec_float :=
  match x with
  | S754_finite _ _ _ =>
      if tiny (to_fx x) then x
      else Num.of_frac (sin_fx (to_fx x)) (Z.to_pos one_fx)
  | S754_zero _ => x
  | _ => Num.NaN
  end.

Definition cos (x : spec_float) : spec_float :=
  match x with
  | S754_finite _ _ _ =>
      if tiny (to_fx x) then Num.of_Z 1
      else Num.of_frac (cos_fx (to_fx x)) (Z.to_pos one_fx)
  | S754_zero _ => Num.of_Z 1
  | _ => Num.NaN
  end.

Definition lib : MathLib := {| Math_sin := sin; Math_cos := cos |}.

End RefMath.

(** ** Typed arrays, points and uniforms *)

(** A [Float32Array] of [n] cells.  Its length is fixed at creation; a
    store rounds the number to single precision. *)
Definition Float32Array (n : nat) : Type := vec spec_float n.

Definition f32_new (n : nat) : Float32Array n := vreplicate n Num.pzero.

Definition f32_set {n} (a : Float32Array n) (k : fin n) (v : spec_float)
  : Float32Array n := vinsert k (Num.fround v) a.

Definition f32_get {n} (a : Float32Array n) (k : fin n) : spec_float := a !!! k.

(** [p_vec] is a [number[]] or a [Float32Array] of any length: reading
    past its end gives [undefined], which a typed array stores as [NaN]. *)
Definition p_get (p_vec : list spec_float) (k : nat) : spec_float :=
  default Num.NaN (p_vec !! k).

(** [uniforms[key] ?? dflt]: a key that is missing, or whose value is
    [undefined] or [null], is a key the map does not have. *)
Definition uniform (uniforms : gmap string spec_float) (key : string)
    (dflt : spec_float) : spec_float :=
  default dflt (uniforms !! key).

(** The module-level scratch buffers [temp_q] and [temp_q_rot]. *)
Record Scratch := {
  temp_q : Float32Array 3;
  temp_q_rot : Float32Array 3
}.

Definition scratch_init : Scratch :=
  {| temp_q := f32_new 3; temp_q_rot := f32_new 3 |}.

(** The variables of one invocation, next to the scratch buffers. *)
Record Frame := {
  scratch : Scratch;
  d : spec_float;
  i : spec_float
}.

(** ** [getPlanet1Distance] *)

Module Lit.
Definition c0_37 := Eval vm_compute in Num.of_frac 37 100.
Definition c1_09 := Eval vm_compute in Num.of_frac 109 100.
Definition c0_0 := Num.pzero.
Definition c58_0 := Eval vm_compute in Num.of_Z 58.
Definition c0_05 := Eval vm_compute in Num.of_frac 5 100.
Definition c1_0 := Eval vm_compute in Num.of_Z 1.
Definition c5_0 := Eval vm_compute in Num.of_Z 5.
Definition c0_9 := Eval vm_compute in Num.of_frac 9 10.
End Lit.

Section Evaluator.

Context (M : MathLib).

Local Open Scope num_scope.

(** Lines 98 to 112 for one component [v] of the rotated point: the
    non-negative remainder modulo [i + i], re-centred by [i], in
    absolute value. *)
Definition fold_abs (v i : spec_float) : spec_float :=
  let two_i := i + i in
  let q := ((v %% two_i) + two_i) %% two_i in
  let q := q - i in
  Num.abs q.

(** The body of the [while] loop (lines 87 to 121). *)
Definition iteration (scale rot pulse t : spec_float) (st : Frame) : Frame :=
  let q := temp_q (scratch st) in
  let r := temp_q_rot (scratch st) in
  let i := i st in
  let angle :=
    rot + Math_sin M (t * Lit.c1_0 + f32_get q 1%fin * Lit.c5_0) * pulse in
  let c := Math_cos M angle in
  let s := Math_sin M angle in
  let r := f32_set r 0%fin (f32_get q 0%fin * c + f32_get q 2%fin * s) in
  let r := f32_set r 1%fin (f32_get q 1%fin) in
  let r := f32_set r 2%fin (- f32_get q 0%fin * s + f32_get q 2%fin * c) in
  let qx := fold_abs (f32_get r 0%fin) i in
  let qy := fold_abs (f32_get r 1%fin) i in
  let qz := fold_abs (f32_get r 2%fin) i in
  let i9 := i * Lit.c0_9 in
  let q := f32_set q 0%fin (i9 - qx) in
  let q := f32_set q 1%fin (i9 - qy) in
  let q := f32_set q 2%fin (i9 - qz) in
  {| scratch := {| temp_q := q; temp_q_rot := r |};
     d := Num.max (d st)
            (Num.min3 (f32_get q 0%fin) (f32_get q 1%fin) (f32_get q 2%fin));
     i := i * scale |}.

(** [while (i > 0.05) { ... }]: [fuel] bounds the number of iterations,
    [None] means the loop is still running when the fuel is spent. *)
Fixpoint while_loop (fuel : nat) (scale rot pulse t : spec_float)
    (st : Frame) : option Frame :=
  if i st >? Lit.c0_05 then
    match fuel with
    | O => None
    | S fuel' => while_loop fuel' scale rot pulse t (iteration scale rot pulse t st)
    end
  else Some st.

(** Lines 79 to 84: the point is copied into [temp_q], [d] and [i] are
    initialised. *)
Definition enter (p_vec : list spec_float) (sc : Scratch) : Frame :=
  let q := temp_q sc in
  let q := f32_set q 0%fin (p_get p_vec 0) in
  let q := f32_set q 1%fin (p_get p_vec 1) in
  let q := f32_set q 2%fin (p_get p_vec 2) in
  {| scratch := {| temp_q := q; temp_q_rot := temp_q_rot sc |};
     d := - f32_get q 1%fin;
     i := Lit.c58_0 |}.

(** The function (lines 73 to 124), on the scratch buffers as an
    earlier call left them: the number returned and the buffers as this
    call leaves them.  With fuel [n] the loop may make [n] iterations. *)
Definition getPlanet1Distance (fuel : nat) (p_vec : list spec_float)
    (uniforms : gmap string spec_float) (t : spec_float) (sc : Scratch)
  : option (spec_float * Scratch) :=
  let scale := uniform uniforms "slider_fractalScale" Lit.c0_37 in
  let rot := uniform uniforms "slider_fractalRotation" Lit.c1_09 in
  let pulse := uniform uniforms "slider_fractalPulseStrength" Lit.c0_0 in
  st ← while_loop fuel scale rot pulse t (enter p_vec sc);
  Some (d st, scratch st).

(** The number of iterations the loop makes, when it stops within
    [fuel] of them. *)
Fixpoint iterations (fuel : nat) (scale rot pulse t : spec_float)
    (st : Frame) : option nat :=
  if i st >? Lit.c0_05 then
    match fuel with
    | O => None
    | S fuel' =>
        S <$> iterations fuel' scale rot pulse t (iteration scale rot pulse t st)
    end
  else Some O.

End Evaluator.

(** ** The distance field as the specification words it

    Section 4.1 describes the evaluator on a point [q], an accumulator
    [d] and a lattice size [i].  [store] is what an assignment to a
    component of [q] does to the number: the identity for the algorithm
    as written, [Num.fround] when [q] is kept in single precision. *)

Record vec3 := { vx : spec_float; vy : spec_float; vz : spec_float }.

Record FractalParams := {
  scale : spec_float;
  rotation : spec_float;
  pulseStrength : spec_float
}.

Definition params_of (uniforms : gmap string spec_float) : FractalParams :=
  {| scale := uniform uniforms "slider_fractalScale" Lit.c0_37;
     rotation := uniform uniforms "slider_fractalRotation" Lit.c1_09;
     pulseStrength := uniform uniforms "slider_fractalPulseStrength" Lit.c0_0 |}.

Definition point_of (p_vec : list spec_float) : vec3 :=
  {| vx := p_get p_vec 0; vy := p_get p_vec 1; vz := p_get p_vec 2 |}.

Module DistanceField.
Section Algorithm.

Context (M : MathLib) (store : spec_float -> spec_float).

Local Open Scope num_scope.

Definition vmap (f : spec_float -> spec_float) (q : vec3) : vec3 :=
  {| vx := f (vx q); vy := f (vy q); vz := f (vz q) |}.

(** Step b: the rotation about the Y axis. *)
Definition rotate_y (angle : spec_float) (q : vec3) : vec3 :=
  let c := Math_cos M angle in
  let s := Math_sin M angle in
  {| vx := store (vx q * c + vz q * s);
     vy := store (vy q);
     vz := store (- vx q * s + vz q * c) |}.

(** Step c: the non-negative remainder, re-centred, in absolute value. *)
Definition true_mod (v y : spec_float) : spec_float := ((v %% y) + y) %% y.

Definition fold (v i : spec_float) : spec_float :=
  Num.abs (true_mod v (i + i) - i).

(** Steps a to f. *)
Definition step (params : FractalParams) (t : spec_float)
    (st : vec3 * spec_float * spec_float) : vec3 * spec_float * spec_float :=
  let '(q, d, i) := st in
  let angle :=
    rotation params + Math_sin M (t + vy q * Lit.c5_0) * pulseStrength params in
  let folded := vmap (fun v => fold v i) (rotate_y angle q) in
  let q' := vmap (fun v => store (Lit.c0_9 * i - v)) folded in
  (q', Num.max d (Num.min3 (vx q') (vy q') (vz q')), i * scale params).

(** Step 2, with [fuel] bounding the number of iterations, and step 3. *)
Fixpoint run (fuel : nat) (params : FractalParams) (t : spec_float)
    (st : vec3 * spec_float * spec_float) : option spec_float :=
  let '(q, d, i) := st in
  if i >? Lit.c0_05 then
    match fuel with
    | O => None
    | S fuel' => run fuel' params t (step params t st)
    end
  else Some d.

(** Step 1 and the loop. *)
Definition distance (fuel : nat) (p : vec3) (params : FractalParams)
    (t : spec_float) : option spec_float :=
  let q := vmap store p in
  run fuel params t (q, - vy q, Lit.c58_0).

End Algorithm.
End DistanceField.

(** ** The default modulation list and the range table *)

Record Modulation := {
  mod_id : string;
  mod_enabled : bool;
  mod_source : string;
  mod_target : string;
  mod_amount : spec_float
}.

(** [defaultSoundConfig.modulations] (lines 170 to 184). *)
Definition defaultSoundConfig_modulations : list Modulation :=
  [ {| mod_id := "1"; mod_enabled := true; mod_source := "speed";
       mod_target := "drone.filter"; mod_amount := Num.of_frac 4 10 |};
    {| mod_id := "5"; mod_enabled := true; mod_source := "altitude";
       mod_target := "atmosphere.gain"; mod_amount := Num.of_frac 15 100 |};
    {| mod_id := "6"; mod_enabled := true; mod_source := "altitude";
       mod_target := "drone.pitch"; mod_amount := Num.of_frac (-1) 10 |};
    {| mod_id := "new1"; mod_enabled := true; mod_source := "pitch";
       mod_target := "arp.direction"; mod_amount := Num.of_frac 15 10 |};
    {| mod_id := "new2"; mod_enabled := true; mod_source := "speed";
       mod_target := "arp.speed"; mod_amount := Num.of_frac 8 10 |};
    {| mod_id := "new3"; mod_enabled := true; mod_source := "pitch";
       mod_target := "arp.octaves"; mod_amount := Num.of_Z 1 |} ].

(** An object literal: a later entry for a key replaces an earlier one. *)
Definition object_of (entries : list (string * spec_float))
  : gmap string spec_float :=
  foldl (fun m kv => <[kv.1 := kv.2]> m) ∅ entries.

(** The entries of [MOD_RANGES] that the source file shows (lines 188 to
    192); the file ends inside the literal. *)
Definition MOD_RANGES_shown : list (string * spec_float) :=
  [ ("masterVolume", Num.of_Z 1);
    ("drone.gain", Num.of_Z 1); ("drone.filter", Num.of_Z 2000);
    ("drone.pitch", Num.of_Z 24);
    ("atmosphere.gain", Num.of_Z 1);
    ("arp.gain", Num.of_Z 1); ("arp.speed", Num.of_Z 3);
    ("arp.filter", Num.of_Z 4000); ("arp.octaves", Num.of_Z 3) ].

(** The table, whatever entries [rest] follow the ones shown. *)
Definition MOD_RANGES (rest : list (string * spec_float))
  : gmap string spec_float :=
  object_of (MOD_RANGES_shown ++ rest).

(** Modelled from the spec: the partition of the modulation targets
    (section 3); the type [ModulationTarget] is declared in a file that
    is not under src/.  The direction mode is the only discrete target. *)
Definition discrete_target (target : string) : bool :=
  bool_decide (target = "arp.direction").

(** Modelled from the spec: the continuous targets are the others
    (section 3). *)
Definition continuous_target (target : string) : bool :=
  negb (discrete_target target).

(** ** The modulation router *)



Module ModulationRouter.
Section Router.

(** The spec leaves the legal domain of most targets and the direction
    threshold open: [clamp] and [threshold] stand for them; [ranges] is
    the range table. *)
Context (ranges : gmap string spec_float).
Context (clamp : string -> spec_float -> spec_float).
Context (threshold : spec_float).

Local Open Scope num_scope.

(** Modelled from the spec: the contribution of one binding (section
    4.3, step 2), part of [ModulationRouter.resolve], whose code is not
    under src/.  It is zero when the range table has no entry for the
    target or the source has no normalized value. *)
Definition contribution (normalized : gmap string spec_float)
    (b : Modulation) : spec_float :=
  match normalized !! mod_source b, ranges !! mod_target b with
  | Some v, Some range => v * mod_amount b * range
  | _, _ => Num.pzero
  end.






End Router.

End ModulationRouter.

(** ** Doubles: the vocabulary of the rounding lemmas *)

Module Double.

Local Open Scope Z_scope.

(** A number is a double when its mantissa and exponent are the
    canonical ones of binary64. *)
Definition valid (x : spec_float) : Prop := valid_binary 53 1024 x = true.

(** What [binary_round_aux] returns once the mantissa has been shifted
    to the exponent [e1] and rounded to [m2]. *)
Definition round_result (s : bool) (m2 e1 : Z) : spec_float :=
  match m2 with
  | Zpos p =>
      if m2 <? 2 ^ 53 then
        if e1 <=? 971 then S754_finite s p e1 else S754_infinity s
      else
        if e1 + 1 <=? 971 then S754_finite s (2 ^ 52)%positive (e1 + 1)
        else S754_infinity s
  | _ => S754_zero s
  end.

(** The value of the double with mantissa [m] and exponent [e], in
    units of the smallest positive double. *)
Definition scaled (m : positive) (e : Z) : Z := Zpos m * 2 ^ (e + 1074).

(** [2 ^ 1021], the largest power of two whose fourfold is still a
    double. *)
Definition large : spec_float := S754_finite false (2 ^ 52)%positive 969.

(** The lattice size while the loop runs: [+0] or a positive double. *)
Definition lattice (x : spec_float) : Prop :=
  x = S754_zero false
  \/ exists m e, x = S754_finite false m e /\ bounded 53 1024 m e = true.

(** The lattice size once it can only grow: [+Infinity], or a normal
    double that is at least 58. *)
Definition grown (x : spec_float) : Prop :=
  x = S754_infinity false
  \/ exists m e, x = S754_finite false m e /\ bounded 53 1024 m e = true
                 /\ 2 ^ 52 <= Zpos m
                 /\ (-47 < e \/ (e = -47 /\ 8162774324609024 <= Zpos m)).

(** The position of a positive double among the doubles. *)
Definition rank (x : spec_float) : nat :=
  match x with
  | S754_finite _ m e => Z.to_nat ((e + 1074) * 2 ^ 53 + Zpos m)
  | _ => O
  end.

(** The order of [SFcompare] on the numbers other than [NaN], as a
    lexicographic order on three integers. *)
Definition key (x : spec_float) : Z * Z * Z :=
  match x with
  | S754_infinity true => (-2, 0, 0)
  | S754_finite true m e => (-1, - e, - Zpos m)
  | S754_zero _ => (0, 0, 0)
  | S754_nan => (0, 0, 0)
  | S754_finite false m e => (1, e, Zpos m)
  | S754_infinity false => (2, 0, 0)
  end.

Definition lex_le (a b : Z * Z * Z) : Prop :=
  let '(a1, a2, a3) := a in
  let '(b1, b2, b3) := b in
  a1 < b1 \/ (a1 = b1 /\ (a2 < b2 \/ (a2 = b2 /\ a3 <= b3))).

Definition lex_lt (a b : Z * Z * Z) : Prop :=
  let '(a1, a2, a3) := a in
  let '(b1, b2, b3) := b in
  a1 < b1 \/ (a1 = b1 /\ (a2 < b2 \/ (a2 = b2 /\ a3 < b3))).

End Double.

(** The point held by a scratch buffer. *)
Definition vec3_of (a : Float32Array 3) : vec3 :=
  {| vx := f32_get a 0%fin; vy := f32_get a 1%fin; vz := f32_get a 2%fin |}.

(** The accumulator [x] is [NaN], or at least [d0]. *)
Definition above (d0 x : spec_float) : Prop :=
  x = Num.NaN \/ Num.leb d0 x = true.

(** The resolved scale lies strictly between 0 and 1. *)
Definition contracting (scale : spec_float) : Prop :=
  Double.valid scale
  /\ Num.ltb Num.pzero scale = true
  /\ Num.ltb scale Lit.c1_0 = true.

(** The resolved scale is 1 or more. *)
Definition expanding (scale : spec_float) : Prop :=
  Double.valid scale /\ Num.leb Lit.c1_0 scale = true.

(** [58 * scale ^ n <= 0.05] in exact arithmetic, for a positive double
    [scale] below one: [n] is at least [log (0.05 / 58) / log scale],
    the iteration bound of section 4.1. *)
Definition real_power_bound (scale : spec_float) (n : nat) : bool :=
  match scale with
  | S754_finite false m e =>
      (58 * 20 * Zpos m ^ Z.of_nat n <=? 2 ^ (- e * Z.of_nat n))%Z
  | _ => false
  end.

(** [m ^ n / 2 ^ (53 * n)] in fixed point with 128 fractional bits, each
    product rounded up. *)
Fixpoint power_ceiling (m : Z) (n : nat) : Z :=
  match n with
  | O => 2 ^ 128
  | S n' => Z.shiftr (power_ceiling m n' * m + (2 ^ 53 - 1)) 53
  end%Z.

(** The lattice size alone decides how long the loop runs: the number
    of iterations from the size [size] on, if at most [fuel]. *)
Fixpoint lattice_steps (fuel : nat) (scale size : spec_float) : option nat :=
  if Num.gtb size Lit.c0_05 then
    match fuel with
    | O => None
    | S fuel' => S <$> lattice_steps fuel' scale (Num.mul size scale)
    end
  else Some O.

(** A scale for which the rounded products need one iteration more than
    that bound: 0.977495240923271. *)
Definition slow_scale : spec_float :=
  Eval vm_compute in Num.of_frac 977495240923271 1000000000000000.

(** The loop stops: some number of iterations is enough. *)
Definition terminates (M : MathLib) (p_vec : list spec_float)
    (uniforms : gmap string spec_float) (t : spec_float) (sc : Scratch) : Prop :=
  exists fuel, is_Some (getPlanet1Distance M fuel p_vec uniforms t sc).

(** Case analysis on a comparison of two numbers given by their keys. *)
Ltac order_cases :=
  cbn [SFcompare Double.key Double.lex_lt Double.lex_le CompOpp];
  change (Pos.compare_cont Eq ?a ?b) with (Pos.compare a b);
  repeat match goal with
    | |- context [Z.compare ?a ?b] => destruct (Z.compare_spec a b)
    | |- context [Pos.compare ?a ?b] => destruct (Pos.compare_spec a b)
    end;
  cbn [CompOpp];
  split; intros; try discriminate; try reflexivity; try lia.

(** * The location hash

    [parseHash] and [stringifyHash] work on strings, which are sequences of
    UTF-16 code units, with the built-in functions [split], [join],
    [substring], [encodeURIComponent] and [decodeURIComponent].  A thrown
    [URIError] is the result [None]. *)

Module Str.
Local Open Scope Z_scope.

(** The code units of a literal of ASCII characters. *)
Definition lit (s : string) : list Z :=
  (fun a => Z.of_nat (Ascii.nat_of_ascii a)) <$> String.list_ascii_of_string s.

Definition amp : Z := 38.
Definition equals : Z := 61.
Definition percent : Z := 37.
Definition sharp : Z := 35.

Definition is_unit (c : Z) : bool := (0 <=? c) && (c <? 65536).
Definition is_lead (c : Z) : bool := (55296 <=? c) && (c <=? 56319).
Definition is_trail (c : Z) : bool := (56320 <=? c) && (c <=? 57343).

(** Code units in range and every surrogate paired. *)
Fixpoint well_formed (s : list Z) : bool :=
  match s with
  | [] => true
  | c :: s' =>
      if is_lead c then
        match s' with
        | c2 :: s'' => is_trail c2 && well_formed s''
        | [] => false
        end
      else is_unit c && negb (is_trail c) && well_formed s'
  end.

(** [s.substring(1)] *)
Definition substring_1 (s : list Z) : list Z := drop 1 s.

(** [s.split(sep)] for a separator of one code unit; the result is never
    empty, and the empty string splits into one empty piece. *)
Fixpoint split (sep : Z) (s : list Z) : list (list Z) :=
  match s with
  | [] => [[]]
  | c :: s' =>
      if c =? sep then [] :: split sep s'
      else match split sep s' with
           | piece :: pieces => (c :: piece) :: pieces
           | [] => [[c]]
           end
  end.

(** [pieces.join(sep)] *)
Fixpoint join (sep : Z) (pieces : list (list Z)) : list Z :=
  match pieces with
  | [] => []
  | [piece] => piece
  | piece :: rest => piece ++ sep :: join sep rest
  end.
End Str.

Module URI.
Import Str.
Local Open Scope Z_scope.

Definition between (lo hi c : Z) : bool := (lo <=? c) && (c <=? hi).

(** The characters [encodeURIComponent] leaves alone: letters, digits and
    [- _ . ! ~ * ' ( )]. *)
Definition unescaped (c : Z) : bool :=
  between 65 90 c || between 97 122 c || between 48 57 c
  || bool_decide (c ∈ [45; 95; 46; 33; 126; 42; 39; 40; 41]).

Definition hex_digit (n : Z) : Z := if n <? 10 then 48 + n else 55 + n.

Definition escape (byte : Z) : list Z :=
  [percent; hex_digit (byte / 16); hex_digit (byte mod 16)].

Definition utf8 (cp : Z) : list Z :=
  if cp <? 128 then [cp]
  else if cp <? 2048 then [192 + cp / 64; 128 + cp mod 64]
  else if cp <? 65536 then
    [224 + cp / 4096; 128 + (cp / 64) mod 64; 128 + cp mod 64]
  else
    [240 + cp / 262144; 128 + (cp / 4096) mod 64;
     128 + (cp / 64) mod 64; 128 + cp mod 64].

Definition code_point (lead trail : Z) : Z :=
  (lead - 55296) * 1024 + (trail - 56320) + 65536.

Definition utf16 (cp : Z) : list Z :=
  if cp <? 65536 then [cp]
  else [55296 + (cp - 65536) / 1024; 56320 + (cp - 65536) mod 1024].

Definition escapes (cp : Z) : list Z := utf8 cp ≫= escape.

Fixpoint encodeURIComponent (s : list Z) : option (list Z) :=
  match s with
  | [] => Some []
  | c :: s' =>
      if unescaped c then cons c <$> encodeURIComponent s'
      else if is_lead c then
        match s' with
        | c2 :: s'' =>
            if is_trail c2
            then app (escapes (code_point c c2)) <$> encodeURIComponent s''
            else None
        | [] => None
        end
      else if is_trail c then None
      else app (escapes c) <$> encodeURIComponent s'
  end.

Definition hex_value (c : Z) : option Z :=
  if between 48 57 c then Some (c - 48)
  else if between 65 70 c then Some (c - 55)
  else if between 97 102 c then Some (c - 87)
  else None.

Definition octet (a b : Z) : option Z :=
  h ← hex_value a; l ← hex_value b; Some (16 * h + l).

Definition continuation (b : Z) : option Z :=
  if between 128 191 b then Some (b - 128) else None.

(** The code point of a valid UTF-8 sequence: no overlong form, no
    surrogate, nothing above U+10FFFF. *)
Definition utf8_decode (octets : list Z) : option Z :=
  match octets with
  | [b0; b1] =>
      x1 ← continuation b1;
      let cp := (b0 - 192) * 64 + x1 in
      if 128 <=? cp then Some cp else None
  | [b0; b1; b2] =>
      x1 ← continuation b1; x2 ← continuation b2;
      let cp := (b0 - 224) * 4096 + x1 * 64 + x2 in
      if (2048 <=? cp) && negb (between 55296 57343 cp) then Some cp else None
  | [b0; b1; b2; b3] =>
      x1 ← continuation b1; x2 ← continuation b2; x3 ← continuation b3;
      let cp := (b0 - 240) * 262144 + x1 * 4096 + x2 * 64 + x3 in
      if between 65536 1114111 cp then Some cp else None
  | _ => None
  end.

Fixpoint decodeURIComponent (s : list Z) : option (list Z) :=
  match s with
  | [] => Some []
  | c :: rest =>
      if negb (c =? percent) then cons c <$> decodeURIComponent rest
      else
        match rest with
        | a :: b :: r0 =>
            b0 ← octet a b;
            if b0 <? 128 then cons b0 <$> decodeURIComponent r0
            else if b0 <? 192 then None
            else if b0 <? 224 then
              match r0 with
              | p1 :: a1 :: b1 :: r1 =>
                  if p1 =? percent then
                    o1 ← octet a1 b1;
                    cp ← utf8_decode [b0; o1];
                    app (utf16 cp) <$> decodeURIComponent r1
                  else None
              | _ => None
              end
            else if b0 <? 240 then
              match r0 with
              | p1 :: a1 :: b1 :: p2 :: a2 :: b2 :: r2 =>
                  if (p1 =? percent) && (p2 =? percent) then
                    o1 ← octet a1 b1; o2 ← octet a2 b2;
                    cp ← utf8_decode [b0; o1; o2];
                    app (utf16 cp) <$> decodeURIComponent r2
                  else None
              | _ => None
              end
            else if b0 <? 248 then
              match r0 with
              | p1 :: a1 :: b1 :: p2 :: a2 :: b2 :: p3 :: a3 :: b3 :: r3 =>
                  if (p1 =? percent) && (p2 =? percent) && (p3 =? percent) then
                    o1 ← octet a1 b1; o2 ← octet a2 b2; o3 ← octet a3 b3;
                    cp ← utf8_decode [b0; o1; o2; o3];
                    app (utf16 cp) <$> decodeURIComponent r3
                  else None
              | _ => None
              end
            else None
        | _ => None
        end
  end.
End URI.

(** An object with string values, as the map of its own properties. *)
Abbreviation JSObject := (gmap (list Z) (list Z)).

(** [obj[key] = value] on an object literal: the key [__proto__] reaches
    the setter of [Object.prototype], which ignores a string. *)
Definition obj_set (obj : JSObject) (key value : list Z) : JSObject :=
  if bool_decide (key = Str.lit "__proto__") then obj else <[key := value]> obj.

(** The body of the [forEach] of [parseHash]. *)
Definition parse_part (params : JSObject) (part : list Z) : option JSObject :=
  match Str.split Str.equals part with
  | [temp0; temp1] =>
      key ← URI.decodeURIComponent temp0;
      value ← URI.decodeURIComponent temp1;
      Some (obj_set params key value)
  | _ => Some params
  end.

Fixpoint forEach (parts : list (list Z)) (params : JSObject) : option JSObject :=
  match parts with
  | [] => Some params
  | part :: rest => params' ← parse_part params part; forEach rest params'
  end.

(** [parseHash], of the value of [window.location.hash]. *)
Definition parseHash (location_hash : list Z) : option JSObject :=
  let hash := Str.substring_1 location_hash in
  match hash with
  | [] => Some ∅
  | _ => forEach (Str.split Str.amp hash) ∅
  end.

(** [stringifyHash], of the list [Object.entries(params)]. *)
Definition stringifyHash (entries : list (list Z * list Z)) : option (list Z) :=
  pieces ← mapM (fun '(key, value) =>
                   k ← URI.encodeURIComponent key;
                   v ← URI.encodeURIComponent value;
                   Some (k ++ Str.equals :: v)) entries;
  Some (Str.join Str.amp pieces).

(** A part of the hash that [parseHash] reads: it has exactly one [=]. *)
Definition two_fields (part : list Z) : bool :=
  bool_decide (length (Str.split Str.equals part) = 2%nat).

(** Linear arithmetic with quotients and remainders by constants. *)
Ltac divmod := Z.div_mod_to_equations; lia.

(** * The scratch buffers *)

Section ScratchLemmas.

Context (M : MathLib).

(** Three stores into the three cells leave nothing of the old array. *)
Lemma f32_overwrite (a b : Float32Array 3) (x y z : spec_float) :
  f32_set (f32_set (f32_set a 0%fin x) 1%fin y) 2%fin z
  = f32_set (f32_set (f32_set b 0%fin x) 1%fin y) 2%fin z.
Proof.
  unfold f32_set. inv_vec a. inv_vec b. intros. reflexivity.
Qed.

(** The first iteration reads [temp_q] as [enter] left it and writes
    every cell of [temp_q_rot] before it reads one. *)
Lemma iteration_enter_scratch scale rot pulse t p_vec (s1 s2 : Scratch) :
  iteration M scale rot pulse t (enter p_vec s1)
  = iteration M scale rot pulse t (enter p_vec s2).
Proof.
  unfold enter.
  rewrite (f32_overwrite (temp_q s1) (temp_q s2)).
  unfold iteration. cbn [scratch temp_q temp_q_rot d i].
  rewrite (f32_overwrite (temp_q_rot s1) (temp_q_rot s2)).
  reflexivity.
Qed.

Lemma enter_i p_vec sc : i (enter p_vec sc) = Lit.c58_0.
Proof. reflexivity. Qed.

Lemma while_loop_enter_scratch fuel scale rot pulse t p_vec (s1 s2 : Scratch) :
  while_loop M fuel scale rot pulse t (enter p_vec s1)
  = while_loop M fuel scale rot pulse t (enter p_vec s2).
Proof.
  destruct fuel as [|fuel]; cbn [while_loop]; rewrite !enter_i.
  - reflexivity.
  - rewrite (iteration_enter_scratch _ _ _ _ _ s1 s2). reflexivity.
Qed.

Lemma scratch_irrelevant fuel p_vec uniforms t (s1 s2 : Scratch) :
  getPlanet1Distance M fuel p_vec uniforms t s1
  = getPlanet1Distance M fuel p_vec uniforms t s2.
Proof.
  unfold getPlanet1Distance.
  rewrite (while_loop_enter_scratch _ _ _ _ _ _ s1 s2). reflexivity.
Qed.

End ScratchLemmas.

(** * Rounding *)

Section Rounding.

Import Double.
Local Open Scope Z_scope.

Lemma digits2_size (p : positive) : digits2_pos p = Pos.size p.
Proof. induction p; simpl; congruence. Qed.

Lemma digits_bounds (p : positive) :
  2 ^ (Zpos (digits2_pos p) - 1) <= Zpos p < 2 ^ Zpos (digits2_pos p).
Proof.
  rewrite digits2_size. split.
  - pose proof (Pos.size_le p) as H.
    assert (Hp : (2 ^ Pos.size p <= p~0)%positive) by exact H.
    apply Pos2Z.pos_le_pos in Hp. rewrite Pos2Z.inj_pow in Hp.
    replace (Zpos (Pos.size p)) with ((Zpos (Pos.size p) - 1) + 1) in Hp by lia.
    rewrite Z.pow_add_r in Hp by lia. change (2 ^ 1) with 2 in Hp. lia.
  - pose proof (Pos.size_gt p) as H.
    apply Pos2Z.pos_lt_pos in H. rewrite Pos2Z.inj_pow in H. exact H.
Qed.

Lemma pow2_pos (k : Z) : 0 <= k -> 0 < 2 ^ k.
Proof. intros. apply Z.pow_pos_nonneg; lia. Qed.

Lemma digits_unique (p : positive) (d : Z) :
  2 ^ (d - 1) <= Zpos p < 2 ^ d -> Zpos (digits2_pos p) = d.
Proof.
  intros [Hl Hu]. pose proof (digits_bounds p) as [Hl' Hu'].
  set (k := Zpos (digits2_pos p)) in *.
  assert (0 < k) by (subst k; lia).
  destruct (Z.lt_trichotomy k d) as [Hlt|[Heq|Hgt]]; [|exact Heq|].
  - assert (2 ^ k <= 2 ^ (d - 1)) by (apply Z.pow_le_mono_r; lia). lia.
  - assert (d <= 0 \/ 0 < d) as [Hd|Hd] by lia.
    + assert (2 ^ (k - 1) >= 1) by (pose proof (pow2_pos (k - 1)); lia).
      assert (2 ^ d <= 1).
      { destruct (Z.eq_dec d 0) as [->|]; [simpl; lia|].
        rewrite Z.pow_neg_r by lia. lia. }
      lia.
    + assert (2 ^ d <= 2 ^ (k - 1)) by (apply Z.pow_le_mono_r; lia). lia.
Qed.

(** ** Shifting a mantissa to the right *)

Lemma iter_pos_nat {A : Type} (f : A -> A) (n : positive) (x : A) :
  SpecFloat.iter_pos f n x = Nat.iter (Pos.to_nat n) f x.
Proof.
  revert x. induction n as [n IH|n IH|]; intros x; cbn [SpecFloat.iter_pos].
  - rewrite !IH, Pos2Nat.inj_xI. rewrite <- Nat.iter_add.
    replace (S (2 * Pos.to_nat n)) with (Pos.to_nat n + Pos.to_nat n + 1)%nat by lia.
    rewrite (Nat.iter_add _ 1). reflexivity.
  - rewrite !IH, Pos2Nat.inj_xO. rewrite <- Nat.iter_add.
    f_equal. lia.
  - reflexivity.
Qed.

Lemma shr_1_spec (m : Z) (r s : bool) :
  0 <= m ->
  shr_1 {| shr_m := m; shr_r := r; shr_s := s |}
  = {| shr_m := Z.div2 m; shr_r := Z.odd m; shr_s := r || s |}.
Proof.
  intros Hm. destruct m as [|[p|p|]|p]; try reflexivity; lia.
Qed.

Lemma shr_iter_spec (k : nat) (M : Z) :
  0 <= M ->
  exists m r s low,
    Nat.iter (S k) shr_1 {| shr_m := M; shr_r := false; shr_s := false |}
    = {| shr_m := m; shr_r := r; shr_s := s |}
    /\ 0 <= m
    /\ 0 <= low < 2 ^ Z.of_nat k
    /\ M = 2 ^ (Z.of_nat k + 1) * m + 2 ^ Z.of_nat k * Z.b2z r + low
    /\ (s = false <-> low = 0).
Proof.
  intros HM. induction k as [|k IH].
  - exists (Z.div2 M), (Z.odd M), false, 0.
    cbn [Nat.iter]. rewrite shr_1_spec by exact HM.
    repeat split; try lia.
    + apply Z.div2_nonneg. exact HM.
    + change (2 ^ (Z.of_nat 0 + 1)) with 2. change (2 ^ Z.of_nat 0) with 1.
      pose proof (Z.div2_odd M). lia.
  - destruct IH as (m & r & s & low & Hit & Hm & Hlow & HMeq & Hs).
    exists (Z.div2 m), (Z.odd m), (r || s)%bool, (2 ^ Z.of_nat k * Z.b2z r + low).
    change (Nat.iter (S (S k)) shr_1 ?x) with (shr_1 (Nat.iter (S k) shr_1 x)).
    rewrite Hit, shr_1_spec by exact Hm.
    rewrite Nat2Z.inj_succ.
    assert (Hp : 0 < 2 ^ Z.of_nat k) by (apply pow2_pos; lia).
    rewrite !Z.pow_succ_r by lia.
    rewrite Z.pow_add_r in HMeq by lia. change (2 ^ 1) with 2 in HMeq.
    rewrite Z.pow_add_r by lia. rewrite Z.pow_succ_r by lia. change (2 ^ 1) with 2.
    pose proof (Z.div2_odd m) as Hdm.
    set (P := 2 ^ Z.of_nat k) in *.
    assert (Hbr : Z.b2z r = 0 \/ Z.b2z r = 1) by (destruct r; simpl; lia).
    repeat split.
    + apply Z.div2_nonneg. exact Hm.
    + nia.
    + nia.
    + rewrite HMeq. rewrite Hdm at 1. ring.
    + intros Hrs. apply orb_false_iff in Hrs. destruct Hrs as [-> Hs'].
      apply Hs in Hs'. simpl. lia.
    + intros H0. assert (Z.b2z r = 0 /\ low = 0) as [Hr0 Hl0] by nia.
      apply Hs in Hl0. destruct r; simpl in Hr0; [lia|]. subst s. reflexivity.
Qed.

Lemma shr_round_spec (M e n : Z) :
  0 <= M -> 0 < n ->
  exists mrs m2,
    shr {| shr_m := M; shr_r := false; shr_s := false |} e n = (mrs, e + n)
    /\ round_nearest_even (shr_m mrs) (loc_of_shr_record mrs) = m2
    /\ M / 2 ^ n <= m2 <= M / 2 ^ n + 1
    /\ Z.abs (m2 * 2 ^ n - M) * 2 <= 2 ^ n.
Proof.
  intros HM Hn. destruct n as [|n|n]; try lia.
  unfold shr. rewrite iter_pos_nat.
  destruct (Pos2Nat.is_succ n) as [k Hk]. rewrite Hk.
  destruct (shr_iter_spec k M HM) as (m & r & s & low & Hit & Hm & Hlow & HMeq & Hs).
  rewrite Hit.
  assert (Hnk : Zpos n = Z.of_nat k + 1) by lia.
  rewrite Hnk in *. clear Hnk Hk.
  assert (Hp : 0 < 2 ^ Z.of_nat k) by (apply pow2_pos; lia).
  rewrite Z.pow_add_r in * by lia. change (2 ^ 1) with 2 in *.
  set (P := 2 ^ Z.of_nat k) in *.
  assert (Hdiv : M / (P * 2) = m).
  { symmetry. apply (Z.div_unique_pos M (P * 2) m (P * Z.b2z r + low)).
    - destruct r; simpl; lia.
    - lia. }
  rewrite Hdiv.
  eexists; eexists; split; [reflexivity|]. split; [reflexivity|].
  cbn [shr_m loc_of_shr_record].
  destruct r, s; cbn [round_nearest_even Z.b2z] in *.
  - assert (low <> 0) by (intros H0; apply Hs in H0; discriminate). split; lia.
  - assert (low = 0) by (apply Hs; reflexivity). destruct (Z.even m); split; lia.
  - assert (low <> 0) by (intros H0; apply Hs in H0; discriminate). split; lia.
  - assert (low = 0) by (apply Hs; reflexivity). split; lia.
Qed.

(** ** Rounding to a double *)

Lemma fexp_eq (e : Z) : fexp 53 1024 e = Z.max (e - 53) (-1074).
Proof. reflexivity. Qed.

Lemma bra_exact (s : bool) (mx : positive) (ex : Z) :
  fexp 53 1024 (Zpos (digits2_pos mx) + ex) <= ex ->
  binary_round_aux 53 1024 s (Zpos mx) ex loc_Exact
  = if ex <=? 971 then S754_finite s mx ex else S754_infinity s.
Proof.
  intros He. unfold binary_round_aux, shr_fexp.
  cbn [Zdigits2 shr_record_of_loc].
  set (n := fexp 53 1024 (Zpos (digits2_pos mx) + ex) - ex) in *.
  assert (Hn : n <= 0) by (subst n; lia).
  assert (Hshr : forall r, shr r ex n = (r, ex)).
  { intros r. unfold shr. destruct n; try reflexivity; lia. }
  rewrite Hshr. cbn [shr_m loc_of_shr_record round_nearest_even Zdigits2 shr_record_of_loc].
  fold n. rewrite Hshr. cbn [shr_m]. reflexivity.
Qed.

Lemma bra_round (s : bool) (mx : positive) (ex : Z) :
  let e1 := fexp 53 1024 (Zpos (digits2_pos mx) + ex) in
  ex < e1 ->
  exists m2,
    Zpos mx / 2 ^ (e1 - ex) <= m2 <= Zpos mx / 2 ^ (e1 - ex) + 1
    /\ Z.abs (m2 * 2 ^ (e1 - ex) - Zpos mx) * 2 <= 2 ^ (e1 - ex)
    /\ m2 <= 2 ^ 53
    /\ binary_round_aux 53 1024 s (Zpos mx) ex loc_Exact = round_result s m2 e1.
Proof.
  intros e1 He.
  unfold binary_round_aux, shr_fexp.
  cbn [Zdigits2 shr_record_of_loc]. fold e1.
  destruct (shr_round_spec (Zpos mx) ex (e1 - ex)) as (mrs & m2 & Hshr & Hrne & Hb & Herr);
    [lia|lia|].
  rewrite Hshr, Hrne. replace (ex + (e1 - ex)) with e1 by lia.
  pose proof (digits_bounds mx) as [_ Hdu].
  assert (He1 : -1074 <= e1 /\ Zpos (digits2_pos mx) + ex - 53 <= e1).
  { subst e1. rewrite fexp_eq. lia. }
  assert (Hm2 : m2 <= 2 ^ 53).
  { assert (Zpos mx / 2 ^ (e1 - ex) < 2 ^ 53); [|lia].
    apply Z.div_lt_upper_bound; [apply pow2_pos; lia|].
    rewrite <- Z.pow_add_r by lia.
    eapply Z.lt_le_trans; [exact Hdu|]. apply Z.pow_le_mono_r; lia. }
  exists m2. split; [exact Hb|]. split; [exact Herr|]. split; [exact Hm2|].
  assert (Hm2n : 0 <= m2).
  { assert (0 <= Zpos mx / 2 ^ (e1 - ex)); [|lia].
    apply Z.div_pos; [lia|apply pow2_pos; lia]. }
  assert (Hshr0 : forall r n, n <= 0 -> shr r e1 n = (r, e1)).
  { intros r n Hn. unfold shr. destruct n; try reflexivity; lia. }
  destruct m2 as [|p|p]; [| |lia].
  - (* the mantissa vanished *)
    cbn [Zdigits2]. rewrite Hshr0 by (rewrite fexp_eq; lia). reflexivity.
  - unfold round_result.
    destruct (Z.ltb_spec (Zpos p) (2 ^ 53)) as [Hlt|Hge].
    + pose proof (digits_bounds p) as [Hdl _].
      assert (Hd : Zpos (digits2_pos p) <= 53).
      { destruct (Z.le_gt_cases (Zpos (digits2_pos p)) 53) as [|Hgt]; [assumption|].
        assert (2 ^ 53 <= 2 ^ (Zpos (digits2_pos p) - 1)) by (apply Z.pow_le_mono_r; lia).
        lia. }
      cbn [Zdigits2]. rewrite Hshr0 by (rewrite fexp_eq; lia). reflexivity.
    + assert (Hp : Zpos p = 2 ^ 53) by lia.
      assert (p = (2 ^ 53)%positive) as -> by (apply Pos2Z.inj; rewrite Hp; reflexivity).
      cbn [Zdigits2].
      replace (fexp 53 1024 (Zpos (digits2_pos (2 ^ 53)) + e1) - e1) with 1
        by (rewrite fexp_eq; change (Zpos (digits2_pos (2 ^ 53))) with 54; lia).
      reflexivity.
Qed.

Lemma bounded_spec (m : positive) (e : Z) :
  bounded 53 1024 m e = true <->
  (-1074 <= e <= 971 /\ Zpos m < 2 ^ 53 /\ (2 ^ 52 <= Zpos m \/ e = -1074)).
Proof.
  unfold bounded, canonical_mantissa. rewrite andb_true_iff, Z.eqb_eq, Z.leb_le.
  rewrite fexp_eq. change (1024 - 53) with 971.
  pose proof (digits_bounds m) as [Hl Hu].
  set (d := Zpos (digits2_pos m)) in *.
  assert (Hd : 0 < d) by (subst d; lia).
  split.
  - intros [Hc He].
    assert (Hd53 : d <= 53) by lia.
    assert (Hm : Zpos m < 2 ^ 53).
    { eapply Z.lt_le_trans; [exact Hu|]. apply Z.pow_le_mono_r; lia. }
    split; [lia|]. split; [exact Hm|].
    destruct (Z.eq_dec e (-1074)) as [|Hne]; [right; assumption|left].
    assert (d = 53) as Hd' by lia. rewrite Hd' in Hl. exact Hl.
  - intros (He & Hm & Hn).
    assert (Hd53 : d <= 53).
    { destruct (Z.le_gt_cases d 53) as [|Hgt]; [assumption|].
      assert (2 ^ 53 <= 2 ^ (d - 1)) by (apply Z.pow_le_mono_r; lia). lia. }
    split; [|lia].
    destruct Hn as [Hn|Hn]; [|lia].
    assert (d = 53); [|lia].
    destruct (Z.eq_dec d 53) as [|Hne]; [assumption|].
    assert (2 ^ d <= 2 ^ 52) by (apply Z.pow_le_mono_r; lia). lia.
Qed.

Lemma div_pow_bounds (M N : Z) :
  0 <= M -> 0 < N -> M / N * N <= M < (M / N + 1) * N.
Proof.
  intros HM HN. pose proof (Z.div_mod M N ltac:(lia)) as Hdm.
  pose proof (Z.mod_pos_bound M N HN). nia.
Qed.

Lemma mul_decreases (mi ms : positive) (ei es : Z) :
  2 ^ 52 <= Zpos mi < 2 ^ 53 -> -1074 < ei <= 971 ->
  Zpos ms < 2 ^ 53 -> es <= -53 ->
  let R := SFmul 53 1024 (S754_finite false mi ei) (S754_finite false ms es) in
  R = S754_zero false
  \/ exists m e, R = S754_finite false m e /\ bounded 53 1024 m e = true
                 /\ (e < ei \/ (e = ei /\ Zpos m < Zpos mi)).
Proof.
  intros Hmi Hei Hms Hes R. subst R. cbn [SFmul xorb].
  set (T := 2 ^ 52) in *.
  assert (HT : T = 4503599627370496) by reflexivity.
  change (2 ^ 53) with (2 * T) in *.
  set (M := (mi * ms)%positive).
  assert (HM : Zpos M = Zpos mi * Zpos ms) by reflexivity.
  pose proof (digits_bounds M) as [Hdl Hdu].
  set (dg := Zpos (digits2_pos M)) in *.
  assert (Hms1 : 1 <= Zpos ms) by lia.
  assert (HMlo : T <= Zpos M) by nia.
  assert (HMhi : Zpos M <= Zpos mi * (2 * T - 1)) by nia.
  assert (Hdg53 : 53 <= dg).
  { destruct (Z.le_gt_cases 53 dg) as [|Hgt]; [assumption|].
    assert (2 ^ dg <= 2 ^ 52) by (apply Z.pow_le_mono_r; subst dg; lia).
    fold T in H. lia. }
  assert (Hdg106 : dg <= 106).
  { destruct (Z.le_gt_cases dg 106) as [|Hgt]; [assumption|].
    assert (2 ^ 106 <= 2 ^ (dg - 1)) by (apply Z.pow_le_mono_r; lia).
    assert (Zpos M < 2 ^ 106) by (change (2 ^ 106) with (2 * T * (2 * T)); nia).
    lia. }
  set (E := ei + es).
  set (e1 := fexp 53 1024 (dg + E)).
  assert (He1 : e1 = Z.max (dg + E - 53) (-1074)) by (subst e1; apply fexp_eq).
  assert (He1ei : e1 <= ei) by lia.
  destruct (Z.le_gt_cases e1 E) as [Hcase|Hcase].
  - (* the product is a double as it stands *)
    right. exists M, E. split.
    + unfold M, E. rewrite bra_exact by (fold M dg E e1; exact Hcase).
      fold E. destruct (Z.leb_spec E 971); [reflexivity|lia].
    + split; [|left; lia].
      apply bounded_spec. fold T. change (2 ^ 53) with (2 * T).
      assert (dg = 53) by lia.
      split; [lia|]. split; [|left; exact HMlo].
      replace dg with 53 in Hdu by lia. change (2 ^ 53) with (2 * T) in Hdu. exact Hdu.
  - (* the product is shifted right by [e1 - E] bits and rounded *)
    destruct (bra_round false M E) as (m2 & Hb & Herr & Hm2 & HR);
      [fold dg e1; lia|].
    fold dg e1 in Hb, Herr, HR. change (2 ^ 53) with (2 * T) in Hm2.
    unfold M, E in HR |- *. rewrite HR. clear HR. fold M E.
    set (n := e1 - E) in *.
    assert (Hn : 0 < n) by lia.
    assert (HN : 0 < 2 ^ n) by (apply pow2_pos; lia).
    pose proof (div_pow_bounds (Zpos M) (2 ^ n) ltac:(lia) HN) as [Hq1 Hq2].
    set (N := 2 ^ n) in *.
    assert (Hm2N : m2 * N <= Zpos M + N) by nia.
    assert (HMm2 : Zpos M < (m2 + 1) * N) by nia.
    assert (Herr1 : (m2 * N - Zpos M) * 2 <= N) by lia.
    assert (Herr2 : (Zpos M - m2 * N) * 2 <= N) by lia.
    assert (Hm2n : 0 <= m2).
    { pose proof (Z.div_pos (Zpos M) N ltac:(lia) HN). lia. }
    unfold round_result. change (2 ^ 53) with (2 * T).
    destruct m2 as [|p|p].
    + left. reflexivity.
    + right.
      destruct (Z.ltb_spec (Zpos p) (2 * T)) as [Hlt|Hge].
      * (* no carry *)
        exists p, e1.
        destruct (Z.leb_spec e1 971); [|lia].
        split; [reflexivity|]. split.
        -- apply bounded_spec. fold T. change (2 ^ 53) with (2 * T).
           split; [lia|]. split; [exact Hlt|].
           destruct (Z.eq_dec e1 (-1074)) as [|Hne]; [right; assumption|left].
           assert (Hn53 : n = dg - 53) by lia.
           assert (HTN : T * N <= Zpos M).
           { eapply Z.le_trans; [|exact Hdl]. subst N. rewrite Hn53. unfold T.
             rewrite <- Z.pow_add_r by lia. apply Z.pow_le_mono_r; lia. }
           nia.
        -- destruct (Z.eq_dec e1 ei) as [Heq|Hne]; [right|left; lia].
           split; [exact Heq|].
           destruct (Z.lt_ge_cases (Zpos p) (Zpos mi)) as [|Hpm]; [assumption|exfalso].
           assert (Hn' : n = - es) by lia.
           assert (HN2T : 2 * T <= N).
           { subst N. change (2 * T) with (2 ^ 53). apply Z.pow_le_mono_r; lia. }
           assert (HpN : Zpos mi * N <= Zpos p * N) by (apply Z.mul_le_mono_nonneg_r; lia).
           assert (H1 : 2 * (Zpos mi * N) <= 2 * (Zpos mi * (2 * T - 1)) + N) by lia.
           assert (H2 : 2 * (T * (N - 2 * T + 1)) <= 2 * (Zpos mi * (N - 2 * T + 1))).
           { apply Z.mul_le_mono_nonneg_l; [lia|]. apply Z.mul_le_mono_nonneg_r; lia. }
           assert (HNle : N <= 2 * T) by nia.
           assert (HNeq : N = 2 * T) by lia.
           assert (Hmieq : Zpos mi = T) by nia.
           assert (HMeq : Zpos M < 2 ^ 105).
           { change (2 ^ 105) with (T * (2 * T)). nia. }
           assert (Hdg105 : dg <= 105).
           { destruct (Z.le_gt_cases dg 105) as [|Hgt]; [assumption|].
             assert (2 ^ 105 <= 2 ^ (dg - 1)) by (apply Z.pow_le_mono_r; lia). lia. }
           assert (Hes53 : es = -53).
           { destruct (Z.eq_dec es (-53)) as [|Hne]; [assumption|].
             assert (2 ^ 54 <= N) by (subst N; apply Z.pow_le_mono_r; lia).
             change (2 ^ 54) with (4 * T) in H0. lia. }
           lia.
      * (* the rounding carried into a new bit *)
        assert (Hp : Zpos p = 2 * T) by lia.
        assert (HNlt : N < 2 * T) by nia.
        assert (Hn53 : n < 53).
        { destruct (Z.lt_ge_cases n 53) as [|Hge']; [assumption|].
          assert (2 ^ 53 <= N) by (subst N; apply Z.pow_le_mono_r; lia).
          change (2 ^ 53) with (2 * T) in H. lia. }
        assert (He1lt : e1 + 1 <= ei) by lia.
        exists (2 ^ 52)%positive, (e1 + 1).
        destruct (Z.leb_spec (e1 + 1) 971); [|lia].
        split; [reflexivity|]. split.
        -- apply bounded_spec. split; [lia|]. split; [reflexivity|left; reflexivity].
        -- destruct (Z.eq_dec (e1 + 1) ei) as [Heq|Hne]; [right|left; lia].
           split; [exact Heq|]. change (Zpos (2 ^ 52)) with T.
           destruct (Z.eq_dec (Zpos mi) T) as [Hmi'|]; [exfalso|lia].
           assert (Hn52 : 52 <= n) by lia.
           assert (T <= N) by (subst N; apply Z.pow_le_mono_r; lia).
           nia.
    + lia.
Qed.

(** ** The order of the numbers *)

Lemma ltb_key (x y : spec_float) :
  Num.is_nan x = false -> Num.is_nan y = false ->
  SFltb x y = true <-> lex_lt (key x) (key y).
Proof.
  intros Hx Hy. unfold SFltb.
  destruct x as [sx|sx| |sx mx ex], y as [sy|sy| |sy my ey];
    try discriminate; try destruct sx; try destruct sy; order_cases.
Qed.

Lemma leb_key (x y : spec_float) :
  Num.is_nan x = false -> Num.is_nan y = false ->
  SFleb x y = true <-> lex_le (key x) (key y).
Proof.
  intros Hx Hy. unfold SFleb.
  destruct x as [sx|sx| |sx mx ex], y as [sy|sy| |sy my ey];
    try discriminate; try destruct sx; try destruct sy; order_cases.
Qed.

Lemma ltb_not_nan (x y : spec_float) :
  SFltb x y = true -> Num.is_nan x = false /\ Num.is_nan y = false.
Proof. destruct x, y; try discriminate; split; reflexivity. Qed.

Lemma leb_not_nan (x y : spec_float) :
  SFleb x y = true -> Num.is_nan x = false /\ Num.is_nan y = false.
Proof. destruct x, y; try discriminate; split; reflexivity. Qed.

Lemma lex_le_trans (a b c : Z * Z * Z) :
  lex_le a b -> lex_le b c -> lex_le a c.
Proof.
  destruct a as [[a1 a2] a3], b as [[b1 b2] b3], c as [[c1 c2] c3].
  unfold lex_le. lia.
Qed.

Lemma lex_le_refl (a : Z * Z * Z) : lex_le a a.
Proof. destruct a as [[a1 a2] a3]. unfold lex_le. lia. Qed.

Lemma lex_lt_le (a b : Z * Z * Z) : lex_lt a b -> lex_le a b.
Proof.
  destruct a as [[a1 a2] a3], b as [[b1 b2] b3]. unfold lex_lt, lex_le. lia.
Qed.

Lemma leb_trans (x y z : spec_float) :
  Num.leb x y = true -> Num.leb y z = true -> Num.leb x z = true.
Proof.
  unfold Num.leb. intros Hxy Hyz.
  destruct (leb_not_nan _ _ Hxy) as [Hx Hy].
  destruct (leb_not_nan _ _ Hyz) as [_ Hz].
  apply leb_key in Hxy; [|assumption..]. apply leb_key in Hyz; [|assumption..].
  apply leb_key; [assumption..|]. eapply lex_le_trans; eassumption.
Qed.

Lemma leb_refl (x : spec_float) : Num.is_nan x = false -> Num.leb x x = true.
Proof. intros Hx. apply leb_key; [assumption..|]. apply lex_le_refl. Qed.

Lemma ltb_leb (x y : spec_float) : Num.ltb x y = true -> Num.leb x y = true.
Proof.
  unfold Num.ltb, Num.leb. intros H. destruct (ltb_not_nan _ _ H) as [Hx Hy].
  apply leb_key; [assumption..|]. apply lex_lt_le. apply ltb_key; assumption.
Qed.

(** ** [Math.max] never goes below its first argument *)

Lemma max_step_ninf (a : spec_float) : Num.max_step Num.ninf a = a.
Proof. destruct a as [[|]|[|]| |[|] m e]; reflexivity. Qed.

Lemma max_ge_left (a b : spec_float) :
  Num.max a b = Num.NaN \/ Num.leb a (Num.max a b) = true.
Proof.
  unfold Num.max. rewrite max_step_ninf.
  destruct (Num.is_nan a) eqn:Ha; [destruct a; try discriminate; left; reflexivity|].
  destruct (Num.is_nan b) eqn:Hb;
    [destruct b; try discriminate; left; destruct a as [[|]|[|]| |[|] m e]; reflexivity|].
  right.
  assert (Hstep : Num.max_step a b = b /\ Num.leb a b = true
                  \/ Num.max_step a b = a).
  { unfold Num.max_step.
    destruct (Num.ltb a b) eqn:Hlt.
    - left. split; [|apply ltb_leb; exact Hlt].
      destruct a as [[|]| | |], b as [[|]| | |]; try discriminate; reflexivity.
    - destruct a as [[|]| | |], b as [[|]| | |]; try discriminate;
        try (right; reflexivity).
      left. split; reflexivity. }
  destruct Hstep as [[-> Hle]| ->]; [exact Hle|apply leb_refl; exact Ha].
Qed.

Lemma max_nan_left (b : spec_float) : Num.max Num.NaN b = Num.NaN.
Proof. reflexivity. Qed.

(** ** The bound of section 4.1, in exact arithmetic *)

Lemma power_ceiling_spec (m : Z) (n : nat) :
  0 < m ->
  0 <= power_ceiling m n
  /\ m ^ Z.of_nat n * 2 ^ 128 <= power_ceiling m n * 2 ^ (53 * Z.of_nat n).
Proof.
  intros Hm. induction n as [|n [IH0 IH]].
  - cbn [power_ceiling]. change (53 * Z.of_nat 0) with 0. change (2 ^ 0) with 1.
    change (m ^ Z.of_nat 0) with 1. lia.
  - cbn [power_ceiling]. rewrite Z.shiftr_div_pow2 by lia.
    rewrite Nat2Z.inj_succ, Z.pow_succ_r by lia.
    replace (53 * Z.succ (Z.of_nat n)) with (53 + 53 * Z.of_nat n) by lia.
    rewrite (Z.pow_add_r 2 53 (53 * Z.of_nat n)) by lia.
    set (c := power_ceiling m n) in *.
    set (K := 2 ^ 53) in *.
    assert (HK : 0 < K) by (subst K; lia).
    set (c' := (c * m + (K - 1)) / K).
    assert (Hc' : c * m <= c' * K).
    { pose proof (Z.div_mod (c * m + (K - 1)) K ltac:(lia)) as Hdm.
      pose proof (Z.mod_pos_bound (c * m + (K - 1)) K HK). fold c' in Hdm. lia. }
    assert (Hc0 : 0 <= c') by (apply Z.div_pos; nia).
    split; [exact Hc0|].
    set (Q := 2 ^ (53 * Z.of_nat n)) in *.
    assert (HQ : 0 < Q) by (apply pow2_pos; lia).
    set (A := m ^ Z.of_nat n) in *. set (B := 2 ^ 128) in *.
    clearbody Q A B K c c'.
    assert (m * (A * B) <= m * (c * Q)) by (apply Z.mul_le_mono_nonneg_l; lia).
    assert (c * m * Q <= c' * K * Q) by (apply Z.mul_le_mono_nonneg_r; lia).
    lia.
Qed.

Lemma real_power_bound_ceiling (m : positive) (n : nat) :
  (58 * 20 * power_ceiling (Zpos m) n <=? 2 ^ 128) = true ->
  real_power_bound (S754_finite false m (-53)) n = true.
Proof.
  intros H. apply Z.leb_le in H. unfold real_power_bound. apply Z.leb_le.
  destruct (power_ceiling_spec (Zpos m) n ltac:(lia)) as [H0 Hle].
  replace (- -53 * Z.of_nat n) with (53 * Z.of_nat n) by lia.
  set (Q := 2 ^ (53 * Z.of_nat n)) in *.
  assert (HQ : 0 < Q) by (apply pow2_pos; lia).
  set (A := Zpos m ^ Z.of_nat n) in *. set (B := 2 ^ 128) in *.
  assert (HB : 0 < B) by (subst B; lia).
  set (c := power_ceiling (Zpos m) n) in *.
  clearbody Q A B c.
  assert (58 * 20 * c * Q <= B * Q) by (apply Z.mul_le_mono_nonneg_r; lia).
  assert (58 * 20 * A * B <= B * Q) by nia.
  nia.
Qed.

(** ** The loop stops when the scale contracts *)

Lemma guard_normal (x : spec_float) :
  lattice x -> Num.gtb x Lit.c0_05 = true ->
  exists m e, x = S754_finite false m e
              /\ 2 ^ 52 <= Zpos m < 2 ^ 53 /\ -1074 < e <= 971.
Proof.
  intros [->|(m & e & -> & Hb)] Hg; [discriminate|].
  exists m, e. split; [reflexivity|].
  apply bounded_spec in Hb. destruct Hb as (He & Hm & Hn).
  unfold Num.gtb, Num.ltb in Hg.
  apply ltb_key in Hg; [|reflexivity..].
  cbn [key Lit.c0_05 lex_lt] in Hg. lia.
Qed.

Lemma contracting_form (s : spec_float) :
  contracting s ->
  exists ms es, s = S754_finite false ms es /\ Zpos ms < 2 ^ 53 /\ es <= -53.
Proof.
  intros (Hv & H0 & H1).
  unfold Num.ltb in H0, H1.
  destruct (ltb_not_nan _ _ H1) as [Hs _].
  apply ltb_key in H0; [|reflexivity|exact Hs].
  apply ltb_key in H1; [|exact Hs|reflexivity].
  destruct s as [sg|[|]| |[|] ms es]; cbn [key Num.pzero Lit.c1_0 lex_lt] in H0, H1;
    try lia; try discriminate.
  exists ms, es. split; [reflexivity|].
  unfold valid in Hv. cbn [valid_binary] in Hv. apply bounded_spec in Hv.
  change (Zpos 4503599627370496) with (2 ^ 52) in H1. lia.
Qed.

Section Termination.

Context (M : MathLib).

Lemma iteration_i scale rot pulse t st :
  i (iteration M scale rot pulse t st) = Num.mul (i st) scale.
Proof. reflexivity. Qed.

(** One iteration takes the lattice size to [+0] or to a smaller
    double. *)
Lemma iteration_shrinks scale rot pulse t st :
  contracting scale -> lattice (i st) ->
  Num.gtb (i st) Lit.c0_05 = true ->
  lattice (i (iteration M scale rot pulse t st))
  /\ (i (iteration M scale rot pulse t st) = S754_zero false
      \/ (rank (i (iteration M scale rot pulse t st)) < rank (i st))%nat).
Proof.
  intros Hs Hl Hg. rewrite iteration_i.
  destruct (guard_normal _ Hl Hg) as (mi & ei & -> & Hmi & Hei).
  destruct (contracting_form _ Hs) as (ms & es & -> & Hms & Hes).
  destruct (mul_decreases mi ms ei es Hmi Hei Hms Hes)
    as [Hz|(m & e & HR & Hb & Hlt)]; unfold Num.mul, Num.prec, Num.emax.
  - rewrite Hz. split; [left; reflexivity|left; reflexivity].
  - rewrite HR. split; [right; exists m, e; split; [reflexivity|exact Hb]|].
    right. cbn [rank]. apply bounded_spec in Hb. destruct Hb as (He & Hm & _).
    apply Z2Nat.inj_lt; [nia|nia|].
    change (2 ^ 53) with 9007199254740992 in *. nia.
Qed.

Lemma while_loop_stops scale rot pulse t :
  contracting scale ->
  forall st, lattice (i st) ->
  exists fuel st', while_loop M fuel scale rot pulse t st = Some st'.
Proof.
  intros Hs st. remember (rank (i st)) as n eqn:Hn. revert st Hn.
  induction n as [n IH] using lt_wf_ind. intros st Hn Hl.
  destruct (Num.gtb (i st) Lit.c0_05) eqn:Hg.
  - destruct (iteration_shrinks scale rot pulse t st Hs Hl Hg) as [Hl' [Hz|Hlt]].
    + exists 1%nat, (iteration M scale rot pulse t st).
      cbn [while_loop]. rewrite Hg, Hz. reflexivity.
    + destruct (IH _ ltac:(subst n; exact Hlt) _ eq_refl Hl') as (fuel & st' & Hrun).
      exists (S fuel), st'. cbn [while_loop]. rewrite Hg. exact Hrun.
  - exists O, st. cbn [while_loop]. rewrite Hg. reflexivity.
Qed.

Lemma enter_lattice p_vec sc : lattice (i (enter p_vec sc)).
Proof.
  right. eexists _, _. split; [reflexivity|reflexivity].
Qed.

Lemma getPlanet1Distance_stops p_vec uniforms t sc :
  contracting (uniform uniforms "slider_fractalScale" Lit.c0_37) ->
  exists fuel r sc', getPlanet1Distance M fuel p_vec uniforms t sc = Some (r, sc').
Proof.
  intros Hs.
  destruct (while_loop_stops _ (uniform uniforms "slider_fractalRotation" Lit.c1_09)
              (uniform uniforms "slider_fractalPulseStrength" Lit.c0_0) t Hs
              (enter p_vec sc) (enter_lattice p_vec sc)) as (fuel & st' & Hrun).
  exists fuel, (d st'), (scratch st'). unfold getPlanet1Distance.
  rewrite Hrun. reflexivity.
Qed.

(** More fuel changes nothing once the loop has stopped. *)
Lemma while_loop_more_fuel scale rot pulse t fuel k st st' :
  while_loop M fuel scale rot pulse t st = Some st' ->
  while_loop M (fuel + k) scale rot pulse t st = Some st'.
Proof.
  revert st. induction fuel as [|fuel IH]; intros st; cbn [while_loop].
  - destruct (Num.gtb (i st) Lit.c0_05) eqn:Hg; [discriminate|].
    intros H. destruct k; cbn [Nat.add while_loop]; rewrite Hg; exact H.
  - destruct (Num.gtb (i st) Lit.c0_05) eqn:Hg.
    + intros H. cbn [Nat.add while_loop]. rewrite Hg. apply IH. exact H.
    + intros H. cbn [Nat.add while_loop]. rewrite Hg. exact H.
Qed.

(** Whether the loop is still running after [fuel] iterations depends
    on the lattice size alone. *)
Lemma iterations_lattice scale rot pulse t fuel :
  forall st,
    iterations M fuel scale rot pulse t st = lattice_steps fuel scale (i st).
Proof.
  induction fuel as [|fuel IH]; intros st; cbn [iterations lattice_steps];
    destruct (Num.gtb (i st) Lit.c0_05); try reflexivity.
  rewrite IH, iteration_i. reflexivity.
Qed.

Lemma while_loop_iterations scale rot pulse t fuel :
  forall st,
    while_loop M fuel scale rot pulse t st = None
    <-> iterations M fuel scale rot pulse t st = None.
Proof.
  induction fuel as [|fuel IH]; intros st; cbn [while_loop iterations];
    destruct (Num.gtb (i st) Lit.c0_05); try tauto; try (split; discriminate).
  rewrite IH. destruct (iterations M fuel _ _ _ t _); cbn; split; congruence.
Qed.

Lemma getPlanet1Distance_running fuel p_vec uniforms t sc :
  lattice_steps fuel (uniform uniforms "slider_fractalScale" Lit.c0_37) Lit.c58_0
  = None ->
  getPlanet1Distance M fuel p_vec uniforms t sc = None.
Proof.
  intros H. unfold getPlanet1Distance.
  rewrite <- (iterations_lattice _ (uniform uniforms "slider_fractalRotation" Lit.c1_09)
                (uniform uniforms "slider_fractalPulseStrength" Lit.c0_0) t fuel
                (enter p_vec sc)) in H.
  apply while_loop_iterations in H. rewrite H. reflexivity.
Qed.

End Termination.

(** ** A scale that is zero, negative or [NaN] ends the loop at once *)

Lemma bra_negative (m e : Z) (l : location) :
  Num.gtb (binary_round_aux 53 1024 true m e l) Lit.c0_05 = false.
Proof.
  unfold binary_round_aux.
  destruct (shr_fexp 53 1024 m e l) as [mrs' e'].
  destruct (shr_fexp 53 1024 _ e' loc_Exact) as [mrs'' e''].
  destruct (shr_m mrs'') as [|p|p]; try reflexivity.
  destruct (e'' <=? 1024 - 53); reflexivity.
Qed.

Lemma mul_nonpos_guard (scale : spec_float) :
  Num.gtb scale Num.pzero = false ->
  Num.gtb (Num.mul Lit.c58_0 scale) Lit.c0_05 = false.
Proof.
  intros Hs. unfold Num.mul, Num.prec, Num.emax.
  destruct scale as [[|]|[|]| |[|] m e]; try reflexivity; try discriminate.
  cbn [SFmul Lit.c58_0 xorb]. apply bra_negative.
Qed.

(** ** A scale of one or more never ends it *)

Lemma mul_increases (mi ms : positive) (ei es : Z) :
  2 ^ 52 <= Zpos mi < 2 ^ 53 -> -1074 <= ei ->
  2 ^ 52 <= Zpos ms < 2 ^ 53 -> -52 <= es ->
  let R := SFmul 53 1024 (S754_finite false mi ei) (S754_finite false ms es) in
  R = S754_infinity false
  \/ exists m e, R = S754_finite false m e /\ bounded 53 1024 m e = true
                 /\ (ei < e \/ (e = ei /\ Zpos mi <= Zpos m)).
Proof.
  intros Hmi Hei Hms Hes R. subst R. cbn [SFmul xorb].
  set (T := 2 ^ 52) in *.
  change (2 ^ 53) with (2 * T) in *.
  set (M := (mi * ms)%positive).
  assert (HM : Zpos M = Zpos mi * Zpos ms) by reflexivity.
  pose proof (digits_bounds M) as [Hdl Hdu].
  set (dg := Zpos (digits2_pos M)) in *.
  assert (HMlo : T * T <= Zpos M) by nia.
  assert (HMmi : Zpos mi * T <= Zpos M) by nia.
  assert (Hdg105 : 105 <= dg).
  { destruct (Z.le_gt_cases 105 dg) as [|Hgt]; [assumption|].
    assert (2 ^ dg <= 2 ^ 104) by (apply Z.pow_le_mono_r; subst dg; lia).
    change (2 ^ 104) with (T * T) in H. lia. }
  set (E := ei + es).
  set (e1 := fexp 53 1024 (dg + E)).
  assert (He1 : e1 = dg + E - 53) by (subst e1; rewrite fexp_eq; lia).
  destruct (bra_round false M E) as (m2 & Hb & Herr & Hm2 & HR);
    [fold dg e1; lia|].
  fold dg e1 in Hb, Herr, HR. change (2 ^ 53) with (2 * T) in Hm2.
  unfold M, E in HR |- *. rewrite HR. clear HR. fold M E.
  set (n := e1 - E) in *.
  assert (Hn : n = dg - 53) by lia.
  assert (HN : 0 < 2 ^ n) by (apply pow2_pos; lia).
  assert (HTN : T * 2 ^ n <= Zpos M).
  { eapply Z.le_trans; [|exact Hdl]. rewrite Hn. unfold T.
    rewrite <- Z.pow_add_r by lia. apply Z.pow_le_mono_r; lia. }
  assert (Hq : T <= Zpos M / 2 ^ n) by (apply Z.div_le_lower_bound; lia).
  unfold round_result. change (2 ^ 53) with (2 * T).
  destruct m2 as [|p|p]; [lia| |lia].
  destruct (Z.ltb_spec (Zpos p) (2 * T)) as [Hlt|Hge].
  - destruct (Z.leb_spec e1 971) as [Hle|Hgt]; [right|left; reflexivity].
    exists p, e1. split; [reflexivity|]. split.
    + apply bounded_spec. fold T. change (2 ^ 53) with (2 * T). lia.
    + destruct (Z.eq_dec e1 ei) as [Heq|Hne]; [right|left; lia].
      split; [exact Heq|].
      assert (Hn52 : n = 52) by lia.
      assert (Zpos mi <= Zpos M / 2 ^ n); [|lia].
      apply Z.div_le_lower_bound; [lia|]. rewrite Hn52. fold T. lia.
  - destruct (Z.leb_spec (e1 + 1) 971) as [Hle|Hgt]; [right|left; reflexivity].
    exists (2 ^ 52)%positive, (e1 + 1). split; [reflexivity|]. split.
    + apply bounded_spec. split; [lia|]. split; [reflexivity|left; reflexivity].
    + left. lia.
Qed.

Lemma expanding_form (s : spec_float) :
  expanding s ->
  s = S754_infinity false
  \/ exists ms es, s = S754_finite false ms es
                   /\ 2 ^ 52 <= Zpos ms < 2 ^ 53 /\ -52 <= es.
Proof.
  intros (Hv & H1). unfold Num.leb in H1.
  destruct (leb_not_nan _ _ H1) as [_ Hs].
  apply leb_key in H1; [|reflexivity|exact Hs].
  destruct s as [sg|[|]| |[|] ms es]; cbn [key Lit.c1_0 lex_le] in H1;
    try lia; try discriminate; [left; reflexivity|right].
  exists ms, es. split; [reflexivity|].
  unfold valid in Hv. cbn [valid_binary] in Hv. apply bounded_spec in Hv.
  change (Zpos 4503599627370496) with (2 ^ 52) in H1. lia.
Qed.

Lemma grown_guard (x : spec_float) : grown x -> Num.gtb x Lit.c0_05 = true.
Proof.
  intros [->|(m & e & -> & Hb & Hm & He)]; [reflexivity|].
  unfold Num.gtb, Num.ltb. apply ltb_key; [reflexivity..|].
  cbn [key Lit.c0_05 lex_lt]. lia.
Qed.

Lemma grown_mul (x s : spec_float) :
  grown x -> expanding s -> grown (Num.mul x s).
Proof.
  intros Hx Hs. unfold Num.mul, Num.prec, Num.emax.
  destruct (expanding_form s Hs) as [->|(ms & es & -> & Hms & Hes)];
    destruct Hx as [->|(m & e & -> & Hb & Hm & He)];
    try (left; reflexivity).
  apply bounded_spec in Hb. destruct Hb as (Heb & Hmb & _).
  destruct (mul_increases m ms e es ltac:(lia) ltac:(lia) Hms Hes)
    as [HR|(m' & e' & HR & Hb' & Hord)]; rewrite HR; [left; reflexivity|right].
  exists m', e'. split; [reflexivity|]. split; [exact Hb'|].
  apply bounded_spec in Hb'. lia.
Qed.

Section Divergence.

Context (M : MathLib).

Lemma while_loop_never scale rot pulse t :
  expanding scale ->
  forall fuel st, grown (i st) ->
  while_loop M fuel scale rot pulse t st = None.
Proof.
  intros Hs fuel. induction fuel as [|fuel IH]; intros st Hg;
    cbn [while_loop]; rewrite (grown_guard _ Hg); [reflexivity|].
  apply IH. rewrite iteration_i. apply grown_mul; assumption.
Qed.

Lemma enter_grown p_vec sc : grown (i (enter p_vec sc)).
Proof.
  right. eexists _, _. split; [reflexivity|]. split; [reflexivity|].
  cbn. lia.
Qed.

Lemma getPlanet1Distance_never p_vec uniforms t sc fuel :
  expanding (uniform uniforms "slider_fractalScale" Lit.c0_37) ->
  getPlanet1Distance M fuel p_vec uniforms t sc = None.
Proof.
  intros Hs. unfold getPlanet1Distance.
  rewrite (while_loop_never _ _ _ _ Hs fuel _ (enter_grown p_vec sc)).
  reflexivity.
Qed.

Lemma getPlanet1Distance_once p_vec uniforms t sc :
  Num.gtb (uniform uniforms "slider_fractalScale" Lit.c0_37) Num.pzero = false ->
  exists st,
    st = iteration M (uniform uniforms "slider_fractalScale" Lit.c0_37)
           (uniform uniforms "slider_fractalRotation" Lit.c1_09)
           (uniform uniforms "slider_fractalPulseStrength" Lit.c0_0) t
           (enter p_vec sc)
    /\ getPlanet1Distance M 1 p_vec uniforms t sc = Some (d st, scratch st).
Proof.
  intros Hs. eexists. split; [reflexivity|].
  unfold getPlanet1Distance. cbn [while_loop].
  rewrite enter_i. change (Num.gtb Lit.c58_0 Lit.c0_05) with true. cbn match.
  rewrite iteration_i, enter_i, (mul_nonpos_guard _ Hs). reflexivity.
Qed.

End Divergence.

(** ** The accumulator never falls *)

Section Accumulator.

Context (M : MathLib).

Lemma above_iteration d0 scale rot pulse t st :
  above d0 (d st) -> above d0 (d (iteration M scale rot pulse t st)).
Proof.
  intros Hd. unfold iteration. cbn [d].
  destruct Hd as [->|Hle]; [left; apply max_nan_left|].
  match goal with |- above _ (Num.max _ ?x) =>
    destruct (max_ge_left (d st) x) as [Hn|Hge] end.
  - left. exact Hn.
  - right. eapply leb_trans; eassumption.
Qed.

Lemma above_while_loop d0 scale rot pulse t fuel :
  forall st st', above d0 (d st) ->
  while_loop M fuel scale rot pulse t st = Some st' -> above d0 (d st').
Proof.
  induction fuel as [|fuel IH]; intros st st' Hd; cbn [while_loop];
    destruct (Num.gtb (i st) Lit.c0_05); try discriminate;
    try (intros [= <-]; exact Hd).
  apply IH. apply above_iteration. exact Hd.
Qed.

Lemma enter_d p_vec sc :
  d (enter p_vec sc) = Num.neg (Num.fround (p_get p_vec 1)).
Proof.
  unfold enter, f32_set, f32_get. cbn [d].
  generalize (temp_q sc). intros q. inv_vec q. intros. reflexivity.
Qed.

Lemma above_refl (x : spec_float) : above x x.
Proof.
  destruct (Num.is_nan x) eqn:Hx.
  - left. destruct x; try discriminate. reflexivity.
  - right. apply leb_refl. exact Hx.
Qed.

Lemma getPlanet1Distance_above fuel p_vec uniforms t sc r sc' :
  getPlanet1Distance M fuel p_vec uniforms t sc = Some (r, sc') ->
  above (Num.neg (Num.fround (p_get p_vec 1))) r.
Proof.
  unfold getPlanet1Distance. intros H.
  destruct (while_loop M fuel _ _ _ t (enter p_vec sc)) as [st'|] eqn:Hrun;
    [|discriminate].
  cbn in H. injection H as <- <-.
  eapply above_while_loop; [|exact Hrun].
  rewrite enter_d. apply above_refl.
Qed.

End Accumulator.

(** ** Two identities of the multiplication *)

Lemma mul_comm (x y : spec_float) : Num.mul x y = Num.mul y x.
Proof.
  unfold Num.mul.
  destruct x as [sx|sx| |sx mx ex], y as [sy|sy| |sy my ey];
    cbn [SFmul]; rewrite ?(xorb_comm sx sy); try reflexivity.
  rewrite (Pos.mul_comm mx my), (Z.add_comm ex ey). reflexivity.
Qed.

Lemma mul_one_r (x : spec_float) : valid x -> Num.mul x Lit.c1_0 = x.
Proof.
  intros Hv. unfold Num.mul, Num.prec, Num.emax.
  destruct x as [s|s| |s m e]; cbn [SFmul Lit.c1_0]; rewrite ?xorb_false_r;
    try reflexivity.
  unfold valid in Hv. cbn [valid_binary] in Hv.
  pose proof Hv as Hb. apply bounded_spec in Hb. destruct Hb as (He & Hm & Hn).
  unfold bounded, canonical_mantissa in Hv. apply andb_true_iff in Hv.
  destruct Hv as [Hc _]. apply Z.eqb_eq in Hc.
  set (M := (m * 4503599627370496)%positive).
  assert (HM : Zpos M = Zpos m * 2 ^ 52) by reflexivity.
  pose proof (digits_bounds m) as [Hdl Hdu].
  assert (Hdg : Zpos (digits2_pos M) = Zpos (digits2_pos m) + 52).
  { apply digits_unique. rewrite HM.
    replace (Zpos (digits2_pos m) + 52 - 1) with (Zpos (digits2_pos m) - 1 + 52) by lia.
    rewrite !Z.pow_add_r by lia. nia. }
  destruct (bra_round s M (e + -52)) as (m2 & Hb & Herr & Hm2 & HR).
  { rewrite Hdg. replace (Zpos (digits2_pos m) + 52 + (e + -52))
      with (Zpos (digits2_pos m) + e) by lia. rewrite Hc. lia. }
  rewrite Hdg in Hb, Herr, HR.
  replace (Zpos (digits2_pos m) + 52 + (e + -52))
    with (Zpos (digits2_pos m) + e) in Hb, Herr, HR by lia.
  rewrite Hc in Hb, Herr, HR.
  replace (e - (e + -52)) with 52 in Hb, Herr by lia.
  rewrite HM in Hb, Herr. rewrite Z.div_mul in Hb by lia.
  assert (m2 = Zpos m) as -> by lia.
  rewrite HR. unfold round_result.
  destruct (Z.ltb_spec (Zpos m) (2 ^ 53)); [|lia].
  destruct (Z.leb_spec e 971); [reflexivity|lia].
Qed.

(** ** The loop and section 4.1 *)

Section Refinement.

Context (M : MathLib).

Lemma iteration_is_step k rot pulse t st :
  valid t ->
  DistanceField.step M Num.fround
    {| scale := k; rotation := rot; pulseStrength := pulse |} t
    (vec3_of (temp_q (scratch st)), d st, i st)
  = (vec3_of (temp_q (scratch (iteration M k rot pulse t st))),
     d (iteration M k rot pulse t st),
     i (iteration M k rot pulse t st)).
Proof.
  intros Ht. destruct st as [[q r] d0 i0]. cbn [scratch temp_q temp_q_rot d i].
  inv_vec q. intros q0 q1 q2. inv_vec r. intros r0 r1 r2.
  unfold DistanceField.step, iteration, DistanceField.vmap,
    DistanceField.rotate_y, DistanceField.fold, DistanceField.true_mod,
    fold_abs, vec3_of, f32_get, f32_set.
  cbn [scratch temp_q temp_q_rot d i vx vy vz scale rotation pulseStrength].
  rewrite (mul_one_r t Ht), (mul_comm Lit.c0_9 i0).
  reflexivity.
Qed.

Lemma while_loop_is_run scale rot pulse t fuel :
  valid t ->
  forall st,
    d <$> while_loop M fuel scale rot pulse t st
    = DistanceField.run M Num.fround fuel
        {| scale := scale; rotation := rot; pulseStrength := pulse |} t
        (vec3_of (temp_q (scratch st)), d st, i st).
Proof.
  intros Ht. induction fuel as [|fuel IH]; intros st;
    cbn [while_loop DistanceField.run];
    destruct (Num.gtb (i st) Lit.c0_05); try reflexivity.
  rewrite IH. rewrite iteration_is_step by exact Ht. reflexivity.
Qed.

Lemma enter_is_init p_vec sc :
  (vec3_of (temp_q (scratch (enter p_vec sc))), d (enter p_vec sc),
   i (enter p_vec sc))
  = (DistanceField.vmap Num.fround (point_of p_vec),
     Num.neg (vy (DistanceField.vmap Num.fround (point_of p_vec))),
     Lit.c58_0).
Proof.
  unfold enter, vec3_of, f32_get, f32_set, point_of, DistanceField.vmap.
  cbn [scratch temp_q d i vx vy vz].
  generalize (temp_q sc). intros q. inv_vec q. intros. reflexivity.
Qed.

Lemma getPlanet1Distance_is_distance fuel p_vec uniforms t sc :
  valid t ->
  fst <$> getPlanet1Distance M fuel p_vec uniforms t sc
  = DistanceField.distance M Num.fround fuel (point_of p_vec)
      (params_of uniforms) t.
Proof.
  intros Ht. unfold getPlanet1Distance, DistanceField.distance, params_of.
  rewrite <- (enter_is_init p_vec sc), <- while_loop_is_run by exact Ht.
  destruct (while_loop M fuel _ _ _ t (enter p_vec sc)); reflexivity.
Qed.

End Refinement.

(** ** Rounding an integer multiple of a power of two *)

Lemma iter_xO_spec (m d : positive) :
  Zpos (Pos.iter xO m d) = Zpos m * 2 ^ Zpos d.
Proof.
  induction d as [|d IH] using Pos.peano_ind.
  - cbn. lia.
  - rewrite Pos.iter_succ, Pos2Z.inj_xO, IH, Pos2Z.inj_succ, Z.pow_succ_r by lia.
    ring.
Qed.

Lemma shl_align_spec (mx : positive) (ex ez : Z) :
  ez <= ex ->
  Zpos (fst (shl_align mx ex ez)) = Zpos mx * 2 ^ (ex - ez)
  /\ snd (shl_align mx ex ez) = ez.
Proof.
  intros He. unfold shl_align.
  destruct (ez - ex) as [|d|d] eqn:Hd; try lia.
  - assert (ez = ex) as -> by lia. cbn [fst snd]. rewrite Z.sub_diag. split; lia.
  - cbn [fst snd]. rewrite iter_xO_spec. replace (ex - ez) with (Zpos d) by lia.
    split; reflexivity.
Qed.

Lemma shl_align_id (mx : positive) (ex ez : Z) :
  ex <= ez -> shl_align mx ex ez = (mx, ex).
Proof.
  intros He. unfold shl_align. destruct (ez - ex) as [|d|d] eqn:Hd; try lia; reflexivity.
Qed.

Lemma scaled_pos (m : positive) (e : Z) : -1074 <= e -> 0 < scaled m e.
Proof. intros. unfold scaled. pose proof (pow2_pos (e + 1074) ltac:(lia)). nia. Qed.

Lemma scaled_shift (m m' : positive) (e e' : Z) :
  -1074 <= e' <= e -> Zpos m' = Zpos m * 2 ^ (e - e') -> scaled m' e' = scaled m e.
Proof.
  intros He Hm. unfold scaled. rewrite Hm.
  replace (e + 1074) with ((e - e') + (e' + 1074)) by lia.
  rewrite (Z.pow_add_r 2 (e - e') (e' + 1074)) by lia. ring.
Qed.

(** A mantissa of at most 53 bits is kept as it is. *)
Lemma round_exact (s : bool) (mx : positive) (ex : Z) :
  -1074 <= ex <= 971 -> Zpos mx < 2 ^ 53 ->
  exists m e, binary_round 53 1024 s mx ex = S754_finite s m e
              /\ bounded 53 1024 m e = true /\ scaled m e = scaled mx ex.
Proof.
  intros He Hm. unfold binary_round.
  pose proof (digits_bounds mx) as [Hdl Hdu].
  set (dg := Zpos (digits2_pos mx)) in *.
  assert (Hdg : dg <= 53).
  { destruct (Z.le_gt_cases dg 53) as [|Hgt]; [assumption|].
    assert (2 ^ 53 <= 2 ^ (dg - 1)) by (apply Z.pow_le_mono_r; lia). lia. }
  set (e1 := fexp 53 1024 (dg + ex)).
  assert (He1 : e1 = Z.max (dg + ex - 53) (-1074)) by (subst e1; apply fexp_eq).
  destruct (shl_align_spec mx ex e1 ltac:(lia)) as [Hmz Hez].
  destruct (shl_align mx ex e1) as [mz ez]. cbn [fst snd] in Hmz, Hez. subst ez.
  assert (Hdz : Zpos (digits2_pos mz) = dg + (ex - e1)).
  { apply digits_unique. rewrite Hmz.
    replace (dg + (ex - e1) - 1) with (dg - 1 + (ex - e1)) by lia.
    rewrite !Z.pow_add_r by (subst dg; lia).
    pose proof (pow2_pos (ex - e1) ltac:(lia)). nia. }
  rewrite bra_exact by (rewrite Hdz, fexp_eq; lia).
  destruct (Z.leb_spec e1 971); [|lia].
  exists mz, e1. split; [reflexivity|]. split.
  - unfold bounded, canonical_mantissa. rewrite Hdz.
    replace (dg + (ex - e1) + e1) with (dg + ex) by lia. fold e1.
    rewrite Z.eqb_refl. cbn. apply Z.leb_le. lia.
  - apply scaled_shift; [lia|exact Hmz].
Qed.

(** Rounding never goes past a double that bounds the number. *)
Lemma round_le_bound (s : bool) (mx mb : positive) (ex eb : Z) :
  -1074 <= ex -> bounded 53 1024 mb eb = true ->
  scaled mx ex <= scaled mb eb ->
  exists m e, binary_round 53 1024 s mx ex = S754_finite s m e
              /\ bounded 53 1024 m e = true /\ scaled m e <= scaled mb eb.
Proof.
  intros He Hb Hle.
  apply bounded_spec in Hb. destruct Hb as (Heb & Hmb & Hnb).
  pose proof (digits_bounds mx) as [Hdl Hdu].
  set (dg := Zpos (digits2_pos mx)) in *.
  assert (Hdg0 : 0 < dg) by (subst dg; lia).
  set (e1 := fexp 53 1024 (dg + ex)).
  assert (He1 : e1 = Z.max (dg + ex - 53) (-1074)) by (subst e1; apply fexp_eq).
  (* the exponent of the result is at most that of the bound *)
  assert (He1b : dg + ex - 53 <= eb).
  { destruct (Z.le_gt_cases (dg + ex - 53) eb) as [|Hgt]; [assumption|exfalso].
    assert (H1 : 2 ^ (dg - 1) * 2 ^ (ex + 1074) <= scaled mx ex).
    { unfold scaled. pose proof (pow2_pos (ex + 1074) ltac:(lia)). nia. }
    rewrite <- Z.pow_add_r in H1 by lia.
    assert (H2 : scaled mb eb < 2 ^ 53 * 2 ^ (eb + 1074)).
    { unfold scaled. pose proof (pow2_pos (eb + 1074) ltac:(lia)). nia. }
    rewrite <- Z.pow_add_r in H2 by lia.
    assert (2 ^ (53 + (eb + 1074)) <= 2 ^ (dg - 1 + (ex + 1074)))
      by (apply Z.pow_le_mono_r; lia).
    lia. }
  destruct (Z.le_gt_cases e1 ex) as [Hcase|Hcase].
  - (* nothing is shifted out *)
    unfold binary_round. fold dg e1.
    destruct (shl_align_spec mx ex e1 Hcase) as [Hmz Hez].
    destruct (shl_align mx ex e1) as [mz ez]. cbn [fst snd] in Hmz, Hez. subst ez.
    assert (Hdz : Zpos (digits2_pos mz) = dg + (ex - e1)).
    { apply digits_unique. rewrite Hmz.
      replace (dg + (ex - e1) - 1) with (dg - 1 + (ex - e1)) by lia.
      rewrite !Z.pow_add_r by lia.
      pose proof (pow2_pos (ex - e1) ltac:(lia)). nia. }
    rewrite bra_exact by (rewrite Hdz, fexp_eq; lia).
    destruct (Z.leb_spec e1 971); [|lia].
    exists mz, e1. split; [reflexivity|]. split.
    + unfold bounded, canonical_mantissa. rewrite Hdz.
      replace (dg + (ex - e1) + e1) with (dg + ex) by lia. fold e1.
      rewrite Z.eqb_refl. cbn. apply Z.leb_le. lia.
    + rewrite (scaled_shift mx mz ex e1) by (try lia; exact Hmz). exact Hle.
  - (* [e1 - ex] bits are shifted out *)
    unfold binary_round. fold dg e1.
    rewrite shl_align_id by lia.
    destruct (bra_round s mx ex) as (m2 & Hb2 & Herr & Hm2 & HR); [fold dg e1; lia|].
    fold dg e1 in Hb2, Herr, HR. rewrite HR. clear HR.
    set (n := e1 - ex) in *.
    assert (Hn : n = dg - 53) by lia.
    assert (HN : 0 < 2 ^ n) by (apply pow2_pos; lia).
    assert (HTN : 2 ^ 52 * 2 ^ n <= Zpos mx).
    { eapply Z.le_trans; [|exact Hdl]. rewrite Hn.
      rewrite <- Z.pow_add_r by lia. apply Z.pow_le_mono_r; lia. }
    assert (Hq : 2 ^ 52 <= Zpos mx / 2 ^ n) by (apply Z.div_le_lower_bound; lia).
    (* the bound, in units of [2 ^ e1] *)
    set (I1 := Zpos mb * 2 ^ (eb - e1)).
    assert (HI1 : scaled mb eb = I1 * 2 ^ n * 2 ^ (ex + 1074)).
    { unfold scaled, I1. replace (eb + 1074) with ((eb - e1) + (n + (ex + 1074))) by lia.
      rewrite !Z.pow_add_r by lia. ring. }
    assert (Hmx : Zpos mx <= I1 * 2 ^ n).
    { unfold scaled in Hle at 1. rewrite HI1 in Hle.
      pose proof (pow2_pos (ex + 1074) ltac:(lia)). nia. }
    assert (Hm2I : m2 <= I1) by nia.
    assert (Hres : forall m e, Zpos m * 2 ^ (e - e1) = m2 -> e1 <= e ->
                   scaled m e <= scaled mb eb).
    { intros m e Hme Hee. unfold scaled at 1. rewrite HI1.
      replace (e + 1074) with ((e - e1) + (n + (ex + 1074))) by lia.
      rewrite !Z.pow_add_r by lia.
      pose proof (pow2_pos (ex + 1074) ltac:(lia)).
      assert (Zpos m * 2 ^ (e - e1) * 2 ^ n <= I1 * 2 ^ n) by nia. nia. }
    unfold round_result.
    destruct m2 as [|p|p]; [lia| |lia].
    destruct (Z.ltb_spec (Zpos p) (2 ^ 53)) as [Hlt|Hge].
    + destruct (Z.leb_spec e1 971); [|lia].
      exists p, e1. split; [reflexivity|]. split.
      * apply bounded_spec. lia.
      * apply Hres; [rewrite Z.sub_diag; lia|lia].
    + assert (Hp : Zpos p = 2 ^ 53) by lia.
      assert (He1lt : e1 < eb).
      { destruct (Z.lt_ge_cases e1 eb) as [|Hge']; [assumption|exfalso].
        assert (eb = e1) by lia. subst I1. replace (eb - e1) with 0 in Hm2I by lia.
        change (2 ^ 0) with 1 in Hm2I. lia. }
      destruct (Z.leb_spec (e1 + 1) 971); [|lia].
      exists (2 ^ 52)%positive, (e1 + 1). split; [reflexivity|]. split.
      * apply bounded_spec. split; [lia|]. split; [reflexivity|left; reflexivity].
      * apply Hres; [|lia]. replace (e1 + 1 - e1) with 1 by lia. rewrite Hp. reflexivity.
Qed.

(** ** Values and the order of doubles *)

Lemma scaled_le_leb (m1 m2 : positive) (e1 e2 : Z) :
  bounded 53 1024 m1 e1 = true -> bounded 53 1024 m2 e2 = true ->
  scaled m1 e1 <= scaled m2 e2 ->
  Num.leb (S754_finite false m1 e1) (S754_finite false m2 e2) = true.
Proof.
  intros H1 H2 Hle. apply bounded_spec in H1, H2.
  destruct H1 as (He1 & Hm1 & Hn1). destruct H2 as (He2 & Hm2 & Hn2).
  apply leb_key; [reflexivity..|]. cbn [key lex_le]. right. split; [reflexivity|].
  unfold scaled in Hle.
  destruct (Z.lt_trichotomy e1 e2) as [Hlt|[Heq|Hgt]]; [left; exact Hlt| |exfalso].
  - right. split; [exact Heq|]. subst e2.
    pose proof (pow2_pos (e1 + 1074) ltac:(lia)). nia.
  - replace (e1 + 1074) with ((e1 - e2) + (e2 + 1074)) in Hle by lia.
    rewrite (Z.pow_add_r 2 (e1 - e2) (e2 + 1074)) in Hle by lia.
    pose proof (pow2_pos (e2 + 1074) ltac:(lia)).
    assert (2 ^ 1 <= 2 ^ (e1 - e2)) by (apply Z.pow_le_mono_r; lia).
    change (2 ^ 1) with 2 in *. change (2 ^ 52) with 4503599627370496 in *.
    change (2 ^ 53) with 9007199254740992 in *.
    assert (Zpos m1 * 2 ^ (e1 - e2) <= Zpos m2) by nia. nia.
Qed.

(** ** The remainder *)

Lemma rem_spec (sn sd : bool) (mn md : positive) (en ed : Z) :
  bounded 53 1024 mn en = true -> bounded 53 1024 md ed = true ->
  Num.rem (S754_finite sn mn en) (S754_finite sd md ed) = S754_zero sn
  \/ exists m e,
       Num.rem (S754_finite sn mn en) (S754_finite sd md ed) = S754_finite sn m e
       /\ bounded 53 1024 m e = true /\ scaled m e < scaled md ed.
Proof.
  intros Hn Hd. apply bounded_spec in Hn, Hd.
  destruct Hn as (Hen & Hmn & _). destruct Hd as (Hed & Hmd & _).
  unfold Num.rem.
  set (ez := Z.min en ed).
  destruct (shl_align_spec mn en ez ltac:(lia)) as [Ha _].
  destruct (shl_align_spec md ed ez ltac:(lia)) as [Hb _].
  set (a := fst (shl_align mn en ez)) in *. set (b := fst (shl_align md ed ez)) in *.
  rewrite Z.rem_mod_nonneg by lia.
  pose proof (Z.mod_pos_bound (Zpos a) (Zpos b) ltac:(lia)) as [Hr0 Hrb].
  assert (Hra : Zpos a mod Zpos b <= Zpos a) by (apply Z.mod_le; lia).
  destruct (Zpos a mod Zpos b) as [|p|p] eqn:Hr; [left|right|lia].
  - destruct sn; reflexivity.
  - assert (Hp53 : Zpos p < 2 ^ 53).
    { destruct (Z.le_ge_cases en ed) as [Hle|Hge].
      - replace (en - ez) with 0 in Ha by lia. change (2 ^ 0) with 1 in Ha. lia.
      - replace (ed - ez) with 0 in Hb by lia. change (2 ^ 0) with 1 in Hb. lia. }
    destruct (round_exact sn p ez ltac:(lia) Hp53) as (m & e & HR & Hbd & Hsc).
    exists m, e. split.
    + destruct sn; cbn [cond_Zopp Z.opp binary_normalize]; exact HR.
    + split; [exact Hbd|]. rewrite Hsc.
      rewrite <- (scaled_shift md b ed ez) by (try lia; exact Hb).
      unfold scaled. pose proof (pow2_pos (ez + 1074) ltac:(lia)). nia.
Qed.

(** ** Doubling *)

Lemma add_self (mi : positive) (ei : Z) :
  bounded 53 1024 mi ei = true -> ei <= 970 ->
  exists my ey,
    Num.add (S754_finite false mi ei) (S754_finite false mi ei)
    = S754_finite false my ey
    /\ bounded 53 1024 my ey = true /\ scaled my ey = 2 * scaled mi ei.
Proof.
  intros Hb He. pose proof Hb as Hb'. apply bounded_spec in Hb'.
  destruct Hb' as (Hei & Hmi & Hn).
  unfold Num.add, Num.prec, Num.emax. cbn [SFadd].
  rewrite Z.min_id, shl_align_id by lia. cbn [fst cond_Zopp].
  change (binary_normalize 53 1024 (Zpos mi + Zpos mi) ei false)
    with (binary_round 53 1024 false (mi + mi) ei).
  destruct (Z.lt_ge_cases (Zpos mi) (2 ^ 52)) as [Hsub|Hnorm].
  - (* a subnormal size *)
    destruct (round_exact false (mi + mi) ei ltac:(lia)) as (m & e & HR & Hbd & Hsc).
    { rewrite Pos2Z.inj_add. change (2 ^ 53) with (2 ^ 52 + 2 ^ 52). lia. }
    exists m, e. split; [exact HR|]. split; [exact Hbd|].
    rewrite Hsc. unfold scaled. rewrite Pos2Z.inj_add. ring.
  - (* a normal size: the exponent goes up by one *)
    exists mi, (ei + 1).
    assert (Hdg : Zpos (digits2_pos (mi + mi)) = 54).
    { apply digits_unique. rewrite Pos2Z.inj_add.
      change (2 ^ (54 - 1)) with (2 ^ 52 + 2 ^ 52).
      change (2 ^ 54) with (2 ^ 53 + 2 ^ 53). lia. }
    unfold binary_round. rewrite Hdg.
    rewrite shl_align_id by (rewrite fexp_eq; lia).
    destruct (bra_round false (mi + mi) ei) as (m2 & Hb2 & Herr & Hm2 & HR);
      [rewrite Hdg, fexp_eq; lia|].
    rewrite Hdg in Hb2, Herr, HR.
    replace (fexp 53 1024 (54 + ei)) with (ei + 1) in Hb2, Herr, HR
      by (rewrite fexp_eq; lia).
    replace (ei + 1 - ei) with 1 in Hb2, Herr by lia.
    change (2 ^ 1) with 2 in Hb2, Herr. rewrite Pos2Z.inj_add in Herr.
    assert (m2 = Zpos mi) as -> by lia.
    rewrite HR. unfold round_result.
    destruct (Z.ltb_spec (Zpos mi) (2 ^ 53)); [|lia].
    destruct (Z.leb_spec (ei + 1) 971); [|lia].
    split; [reflexivity|]. split.
    + apply bounded_spec. lia.
    + unfold scaled. replace (ei + 1 + 1074) with (1 + (ei + 1074)) by lia.
      rewrite (Z.pow_add_r 2 1 (ei + 1074)) by lia. change (2 ^ 1) with 2. ring.
Qed.

(** ** The fold *)

(** Adding the modulus to a remainder gives a positive double. *)
Lemma add_modulus (sn : bool) (m1 my : positive) (e1 ey : Z) :
  bounded 53 1024 m1 e1 = true -> bounded 53 1024 my ey = true ->
  scaled m1 e1 < scaled my ey ->
  2 * scaled my ey <= scaled (2 ^ 52) 971 ->
  exists m e,
    Num.add (S754_finite sn m1 e1) (S754_finite false my ey) = S754_finite false m e
    /\ bounded 53 1024 m e = true.
Proof.
  intros H1 Hy Hlt Hbig. pose proof H1 as H1'. pose proof Hy as Hy'.
  apply bounded_spec in H1', Hy'.
  destruct H1' as (He1 & _ & _). destruct Hy' as (Hey & _ & _).
  unfold Num.add, Num.prec, Num.emax. cbn [SFadd].
  set (ez := Z.min e1 ey).
  destruct (shl_align_spec m1 e1 ez ltac:(lia)) as [Ha _].
  destruct (shl_align_spec my ey ez ltac:(lia)) as [Hb _].
  set (a := fst (shl_align m1 e1 ez)) in *. set (b := fst (shl_align my ey ez)) in *.
  pose proof (scaled_shift m1 a e1 ez ltac:(lia) Ha) as Hsa.
  pose proof (scaled_shift my b ey ez ltac:(lia) Hb) as Hsb.
  assert (Hp2 : 0 < 2 ^ (ez + 1074)) by (apply pow2_pos; lia).
  assert (Hab : Zpos a < Zpos b).
  { rewrite <- Hsa, <- Hsb in Hlt. unfold scaled in Hlt. nia. }
  set (S := cond_Zopp sn (Zpos a) + cond_Zopp false (Zpos b)).
  assert (HS : 0 < S <= Zpos a + Zpos b).
  { subst S. destruct sn; cbn [cond_Zopp]; lia. }
  destruct S as [|p|p] eqn:HSeq; [lia| |lia].
  cbn [binary_normalize].
  destruct (round_le_bound false p (2 ^ 52) ez 971 ltac:(lia) eq_refl)
    as (m & e & HR & Hbd & _).
  { eapply Z.le_trans; [|exact Hbig]. rewrite <- Hsb. unfold scaled. nia. }
  exists m, e. split; [exact HR|exact Hbd].
Qed.

(** Re-centring a remainder of [2 i] by [i] stays within [i]. *)
Lemma sub_half (m3 mi : positive) (e3 ei : Z) :
  bounded 53 1024 m3 e3 = true -> bounded 53 1024 mi ei = true ->
  scaled m3 e3 < 2 * scaled mi ei ->
  Num.leb Num.pzero
    (Num.abs (Num.sub (S754_finite false m3 e3) (S754_finite false mi ei))) = true
  /\ Num.leb
       (Num.abs (Num.sub (S754_finite false m3 e3) (S754_finite false mi ei)))
       (S754_finite false mi ei) = true.
Proof.
  intros H3 Hi Hlt. pose proof H3 as H3'. pose proof Hi as Hi'.
  apply bounded_spec in H3', Hi'.
  destruct H3' as (He3 & _ & _). destruct Hi' as (Hei & _ & _).
  unfold Num.sub, Num.prec, Num.emax. cbn [SFsub].
  set (ez := Z.min e3 ei).
  destruct (shl_align_spec m3 e3 ez ltac:(lia)) as [Ha _].
  destruct (shl_align_spec mi ei ez ltac:(lia)) as [Hb _].
  set (a := fst (shl_align m3 e3 ez)) in *. set (b := fst (shl_align mi ei ez)) in *.
  pose proof (scaled_shift m3 a e3 ez ltac:(lia) Ha) as Hsa.
  pose proof (scaled_shift mi b ei ez ltac:(lia) Hb) as Hsb.
  assert (Hp2 : 0 < 2 ^ (ez + 1074)) by (apply pow2_pos; lia).
  assert (Hab : Zpos a < 2 * Zpos b).
  { rewrite <- Hsa, <- Hsb in Hlt. unfold scaled in Hlt. nia. }
  cbn [cond_Zopp].
  destruct (Zpos a - Zpos b) as [|p|p] eqn:HD; cbn [binary_normalize].
  - split; reflexivity.
  - destruct (round_le_bound false p mi ez ei ltac:(lia) Hi) as (m & e & HR & Hbd & Hle).
    { rewrite <- Hsb. unfold scaled. nia. }
    rewrite HR. cbn [Num.abs SFabs]. split; [reflexivity|].
    apply scaled_le_leb; assumption.
  - destruct (round_le_bound true p mi ez ei ltac:(lia) Hi) as (m & e & HR & Hbd & Hle).
    { rewrite <- Hsb. unfold scaled. nia. }
    rewrite HR. cbn [Num.abs SFabs]. split; [reflexivity|].
    apply scaled_le_leb; assumption.
Qed.

Lemma size_form (x : spec_float) :
  valid x -> Num.ltb Num.pzero x = true -> Num.leb x large = true ->
  exists mi ei, x = S754_finite false mi ei /\ bounded 53 1024 mi ei = true
                /\ ei <= 969 /\ scaled mi ei <= scaled (2 ^ 52) 969.
Proof.
  intros Hv H0 Hl. unfold Num.ltb in H0. unfold Num.leb in Hl.
  destruct (leb_not_nan _ _ Hl) as [Hx _].
  apply ltb_key in H0; [|reflexivity|exact Hx].
  apply leb_key in Hl; [|exact Hx|reflexivity].
  destruct x as [s|[|]| |[|] mi ei]; cbn [key Num.pzero large lex_lt lex_le] in H0, Hl;
    try lia; try discriminate.
  exists mi, ei. split; [reflexivity|]. unfold valid in Hv. cbn [valid_binary] in Hv.
  split; [exact Hv|]. apply bounded_spec in Hv. destruct Hv as (He & Hm & _).
  split; [lia|]. unfold scaled.
  change (Zpos (2 ^ 52)) with (2 ^ 52). change (2 ^ 53) with (2 * 2 ^ 52) in Hm.
  assert (HP : 0 < 2 ^ (ei + 1074)) by (apply pow2_pos; lia).
  destruct (Z.eq_dec ei 969) as [->|Hne].
  - set (Q := 2 ^ (969 + 1074)) in *. clearbody Q. nia.
  - assert (HPQ : 2 ^ (ei + 1 + 1074) <= 2 ^ (969 + 1074))
      by (apply Z.pow_le_mono_r; lia).
    replace (ei + 1 + 1074) with (1 + (ei + 1074)) in HPQ by lia.
    rewrite (Z.pow_add_r 2 1 (ei + 1074)) in HPQ by lia. change (2 ^ 1) with 2 in HPQ.
    set (Q := 2 ^ (969 + 1074)) in *. set (P := 2 ^ (ei + 1074)) in *.
    clearbody Q P. nia.
Qed.

Lemma fold_abs_range (v size : spec_float) :
  valid v -> Num.is_finite v = true ->
  valid size -> Num.ltb Num.pzero size = true -> Num.leb size large = true ->
  Num.leb Num.pzero (fold_abs v size) = true
  /\ Num.leb (fold_abs v size) size = true.
Proof.
  intros Hv Hf Hs H0 Hl.
  destruct (size_form size Hs H0 Hl) as (mi & ei & -> & Hbi & Hei & Hsi).
  destruct (add_self mi ei Hbi ltac:(lia)) as (my & ey & Hy & Hby & Hsy).
  unfold fold_abs. cbv zeta. rewrite Hy.
  assert (Hbig : 2 * scaled my ey <= scaled (2 ^ 52) 971).
  { rewrite Hsy. unfold scaled in *.
    change (971 + 1074) with (2 + (969 + 1074)).
    rewrite (Z.pow_add_r 2 2 (969 + 1074)) by lia. change (2 ^ 2) with 4.
    set (Q := 2 ^ (969 + 1074)) in *. set (P := 2 ^ (ei + 1074)) in *.
    clearbody Q P. lia. }
  (* the first remainder plus the modulus is a positive double *)
  assert (Hr2 : exists m2 e2,
    Num.add (Num.rem v (S754_finite false my ey)) (S754_finite false my ey)
    = S754_finite false m2 e2 /\ bounded 53 1024 m2 e2 = true).
  { destruct v as [s|s| |sn mn en]; try discriminate.
    - exists my, ey. split; [reflexivity|exact Hby].
    - destruct (rem_spec sn false mn my en ey Hv Hby) as [Hz|(m1 & e1 & HR & Hb1 & Hlt)].
      + rewrite Hz. exists my, ey. split; [reflexivity|exact Hby].
      + rewrite HR. apply add_modulus; assumption. }
  destruct Hr2 as (m2 & e2 & -> & Hb2).
  destruct (rem_spec false false m2 my e2 ey Hb2 Hby) as [Hz|(m3 & e3 & HR & Hb3 & Hlt)].
  - rewrite Hz. cbn [Num.sub SFsub negb Num.abs SFabs].
    split; [apply ltb_leb; exact H0|apply leb_refl; reflexivity].
  - rewrite HR. apply sub_half; [assumption..|]. rewrite <- Hsy. exact Hlt.
Qed.

End Rounding.

(** ** The range table and the router *)

Lemma foldl_insert_is_Some (entries : list (string * spec_float))
    (m : gmap string spec_float) (k : string) :
  is_Some (m !! k) ∨ k ∈ entries.*1 ->
  is_Some (foldl (fun m kv => <[kv.1 := kv.2]> m) m entries !! k).
Proof.
  revert m. induction entries as [|[k' v] entries IH]; intros m H; cbn [foldl].
  - destruct H as [H|H]; [exact H|]. inversion H.
  - apply IH. cbn [fmap list_fmap fst] in H.
    destruct (decide (k' = k)) as [->|Hne].
    + left. rewrite lookup_insert_eq. eauto.
    + destruct H as [H|H].
      * left. rewrite lookup_insert_ne by exact Hne. exact H.
      * apply elem_of_cons in H. destruct H as [H|H]; [congruence|right; exact H].
Qed.

Lemma MOD_RANGES_shown_is_Some (rest : list (string * spec_float)) (k : string) :
  k ∈ MOD_RANGES_shown.*1 -> is_Some (MOD_RANGES rest !! k).
Proof.
  intros H. unfold MOD_RANGES, object_of. apply foldl_insert_is_Some.
  right. rewrite fmap_app. apply elem_of_app. left. exact H.
Qed.

Section RouterLemmas.

Context (ranges : gmap string spec_float).
Context (clamp : string -> spec_float -> spec_float).
Context (threshold : spec_float).




End RouterLemmas.

(** * Splitting and joining strings *)

Section Strings.

Import Str.
Local Open Scope Z_scope.

Lemma split_cons_inv (sep : Z) (s : list Z) :
  exists piece pieces, split sep s = piece :: pieces.
Proof.
  destruct s as [|c s]; cbn [split]; [eauto|].
  destruct (c =? sep); [eauto|]. destruct (split sep s); eauto.
Qed.

Lemma split_no_sep (sep : Z) (s : list Z) :
  sep ∉ s -> split sep s = [s].
Proof.
  induction s as [|c s IH]; intros Hs; [reflexivity|].
  apply not_elem_of_cons in Hs as [Hc Hs]. cbn [split].
  destruct (Z.eqb_spec c sep); [congruence|].
  rewrite (IH Hs). reflexivity.
Qed.

Lemma split_app (sep : Z) (a b : list Z) :
  split sep (a ++ sep :: b) = split sep a ++ split sep b.
Proof.
  induction a as [|c a IH]; cbn [app split].
  - rewrite Z.eqb_refl. reflexivity.
  - destruct (c =? sep); [rewrite IH; reflexivity|].
    rewrite IH. destruct (split_cons_inv sep a) as (p & ps & ->). reflexivity.
Qed.

Lemma split_join (sep : Z) (pieces : list (list Z)) :
  pieces <> [] -> Forall (fun piece => sep ∉ piece) pieces ->
  split sep (join sep pieces) = pieces.
Proof.
  induction pieces as [|p ps IH]; intros Hne Hall; [congruence|].
  apply Forall_cons in Hall as [Hp Hps].
  destruct ps as [|p' ps]; [cbn [join]; apply split_no_sep, Hp|].
  change (join sep (p :: p' :: ps)) with (p ++ sep :: join sep (p' :: ps)).
  rewrite split_app, (split_no_sep _ _ Hp), IH; [reflexivity|congruence|exact Hps].
Qed.

Lemma join_cons (sep : Z) (p q : list Z) (rest : list (list Z)) :
  join sep (p :: q :: rest) = p ++ sep :: join sep (q :: rest).
Proof. reflexivity. Qed.


Lemma split_pieces_no_sep (sep : Z) (s : list Z) :
  Forall (fun piece => sep ∉ piece) (split sep s).
Proof.
  induction s as [|c s IH]; cbn [split].
  - repeat constructor. apply not_elem_of_nil.
  - destruct (Z.eqb_spec c sep) as [->|Hc].
    + constructor; [apply not_elem_of_nil|exact IH].
    + destruct (split_cons_inv sep s) as (p & ps & Hs). rewrite Hs in *.
      apply Forall_cons in IH as [Hp Hps]. constructor; [|exact Hps].
      apply not_elem_of_cons. split; [congruence|exact Hp].
Qed.

End Strings.

(** * Percent-encoding *)

Section Percent.

Import Str URI.
Local Open Scope Z_scope.

Lemma hex_value_digit (n : Z) :
  0 <= n < 16 -> hex_value (hex_digit n) = Some n.
Proof.
  intros Hn. unfold hex_value, hex_digit.
  destruct (Z.ltb_spec n 10).
  - replace (between 48 57 (48 + n)) with true by (unfold between; lia).
    f_equal. lia.
  - replace (between 48 57 (55 + n)) with false by (unfold between; lia).
    replace (between 65 70 (55 + n)) with true by (unfold between; lia).
    f_equal. lia.
Qed.

Lemma octet_escape (b : Z) :
  0 <= b < 256 -> octet (hex_digit (b / 16)) (hex_digit (b mod 16)) = Some b.
Proof.
  intros Hb. unfold octet.
  rewrite !hex_value_digit by divmod.
  cbn. f_equal. divmod.
Qed.

Lemma hex_digit_unescaped (n : Z) :
  0 <= n < 16 -> unescaped (hex_digit n) = true.
Proof.
  intros Hn. unfold unescaped, hex_digit.
  apply orb_true_iff. left. unfold between.
  destruct (Z.ltb_spec n 10); lia.
Qed.

Lemma unescaped_unit (c : Z) :
  unescaped c = true ->
  c <> percent /\ c <> amp /\ c <> equals /\ c <> sharp
  /\ is_unit c = true /\ is_lead c = false /\ is_trail c = false.
Proof.
  unfold unescaped, between, percent, amp, equals, sharp, is_unit, is_lead, is_trail.
  intros H.
  assert (Hc : 39 <= c <= 57 \/ 65 <= c <= 126 \/ c = 33).
  { apply orb_true_iff in H as [H|H].
    - rewrite !orb_true_iff, !andb_true_iff, !Z.leb_le in H. lia.
    - apply bool_decide_eq_true in H.
      repeat (apply elem_of_cons in H as [->|H]; [lia|]).
      apply elem_of_nil in H. destruct H. }
  repeat split; lia.
Qed.

Lemma decode_plain (c : Z) (s : list Z) :
  c <> percent ->
  decodeURIComponent (c :: s) = cons c <$> decodeURIComponent s.
Proof.
  intros Hc. cbn [decodeURIComponent].
  destruct (Z.eqb_spec c percent); [contradiction|]. reflexivity.
Qed.


(** One escaped octet below 128. *)
Lemma decode_1 (b0 : Z) (r : list Z) :
  0 <= b0 < 128 ->
  decodeURIComponent (escape b0 ++ r) = cons b0 <$> decodeURIComponent r.
Proof.
  intros H0. unfold escape. cbn [app decodeURIComponent].
  rewrite Z.eqb_refl. cbn [negb]. rewrite octet_escape by lia. cbn [mbind option_bind].
  destruct (Z.ltb_spec b0 128); [reflexivity|lia].
Qed.

Lemma decode_2 (b0 b1 : Z) (r : list Z) :
  192 <= b0 < 224 -> 0 <= b1 < 256 ->
  decodeURIComponent (escape b0 ++ escape b1 ++ r)
  = cp ← utf8_decode [b0; b1]; app (utf16 cp) <$> decodeURIComponent r.
Proof.
  intros H0 H1. unfold escape. cbn [app decodeURIComponent].
  rewrite !Z.eqb_refl. cbn [negb andb]. rewrite !octet_escape by divmod.
  cbn [mbind option_bind].
  destruct (Z.ltb_spec b0 128); [lia|]. destruct (Z.ltb_spec b0 192); [lia|].
  destruct (Z.ltb_spec b0 224); [|lia]. reflexivity.
Qed.

Lemma decode_3 (b0 b1 b2 : Z) (r : list Z) :
  224 <= b0 < 240 -> 0 <= b1 < 256 -> 0 <= b2 < 256 ->
  decodeURIComponent (escape b0 ++ escape b1 ++ escape b2 ++ r)
  = cp ← utf8_decode [b0; b1; b2]; app (utf16 cp) <$> decodeURIComponent r.
Proof.
  intros H0 H1 H2. unfold escape. cbn [app decodeURIComponent].
  rewrite !Z.eqb_refl. cbn [negb andb]. rewrite !octet_escape by divmod.
  cbn [mbind option_bind].
  destruct (Z.ltb_spec b0 128); [lia|]. destruct (Z.ltb_spec b0 192); [lia|].
  destruct (Z.ltb_spec b0 224); [lia|]. destruct (Z.ltb_spec b0 240); [|lia].
  reflexivity.
Qed.

Lemma decode_4 (b0 b1 b2 b3 : Z) (r : list Z) :
  240 <= b0 < 248 -> 0 <= b1 < 256 -> 0 <= b2 < 256 -> 0 <= b3 < 256 ->
  decodeURIComponent (escape b0 ++ escape b1 ++ escape b2 ++ escape b3 ++ r)
  = cp ← utf8_decode [b0; b1; b2; b3]; app (utf16 cp) <$> decodeURIComponent r.
Proof.
  intros H0 H1 H2 H3. unfold escape. cbn [app decodeURIComponent].
  rewrite !Z.eqb_refl. cbn [negb andb]. rewrite !octet_escape by divmod.
  cbn [mbind option_bind].
  destruct (Z.ltb_spec b0 128); [lia|]. destruct (Z.ltb_spec b0 192); [lia|].
  destruct (Z.ltb_spec b0 224); [lia|]. destruct (Z.ltb_spec b0 240); [lia|].
  destruct (Z.ltb_spec b0 248); [|lia]. reflexivity.
Qed.

(** A Unicode scalar value: a code point that is no surrogate. *)
Lemma utf8_decode_utf8 (cp : Z) :
  128 <= cp < 1114112 -> ~ (55296 <= cp <= 57343) ->
  utf8_decode (utf8 cp) = Some cp.
Proof.
  intros Hcp Hs. unfold utf8.
  destruct (Z.ltb_spec cp 128); [lia|].
  destruct (Z.ltb_spec cp 2048); [|destruct (Z.ltb_spec cp 65536)];
    unfold utf8_decode, continuation, between.
  - assert (0 <= cp mod 64 < 64) by divmod.
    destruct (Z.leb_spec 128 (128 + cp mod 64)); [|lia].
    destruct (Z.leb_spec (128 + cp mod 64) 191); [|lia].
    cbn [andb mbind option_bind].
    replace ((192 + cp / 64 - 192) * 64 + (128 + cp mod 64 - 128)) with cp by divmod.
    destruct (Z.leb_spec 128 cp); [reflexivity|lia].
  - assert (0 <= cp mod 64 < 64) by divmod.
    assert (0 <= (cp / 64) mod 64 < 64) by divmod.
    destruct (Z.leb_spec 128 (128 + (cp / 64) mod 64)); [|lia].
    destruct (Z.leb_spec (128 + (cp / 64) mod 64) 191); [|lia].
    destruct (Z.leb_spec 128 (128 + cp mod 64)); [|lia].
    destruct (Z.leb_spec (128 + cp mod 64) 191); [|lia].
    cbn [andb mbind option_bind].
    replace ((224 + cp / 4096 - 224) * 4096 + (128 + (cp / 64) mod 64 - 128) * 64
             + (128 + cp mod 64 - 128)) with cp by divmod.
    destruct (Z.leb_spec 2048 cp); [|lia].
    destruct (Z.leb_spec 55296 cp), (Z.leb_spec cp 57343); try reflexivity; lia.
  - assert (0 <= cp mod 64 < 64) by divmod.
    assert (0 <= (cp / 64) mod 64 < 64) by divmod.
    assert (0 <= (cp / 4096) mod 64 < 64) by divmod.
    destruct (Z.leb_spec 128 (128 + (cp / 4096) mod 64)); [|lia].
    destruct (Z.leb_spec (128 + (cp / 4096) mod 64) 191); [|lia].
    destruct (Z.leb_spec 128 (128 + (cp / 64) mod 64)); [|lia].
    destruct (Z.leb_spec (128 + (cp / 64) mod 64) 191); [|lia].
    destruct (Z.leb_spec 128 (128 + cp mod 64)); [|lia].
    destruct (Z.leb_spec (128 + cp mod 64) 191); [|lia].
    cbn [andb mbind option_bind].
    replace ((240 + cp / 262144 - 240) * 262144
             + (128 + (cp / 4096) mod 64 - 128) * 4096
             + (128 + (cp / 64) mod 64 - 128) * 64
             + (128 + cp mod 64 - 128)) with cp by divmod.
    destruct (Z.leb_spec 65536 cp), (Z.leb_spec cp 1114111); try reflexivity; lia.
Qed.

Lemma decode_escapes (cp : Z) (r : list Z) :
  0 <= cp < 1114112 -> ~ (55296 <= cp <= 57343) ->
  decodeURIComponent (escapes cp ++ r) = app (utf16 cp) <$> decodeURIComponent r.
Proof.
  intros Hcp Hs.
  destruct (Z.ltb_spec cp 128) as [Hlt|Hge].
  - unfold escapes, utf8. destruct (Z.ltb_spec cp 128); [|lia].
    cbn [mbind list_bind]. rewrite app_nil_r, decode_1 by lia.
    unfold utf16. destruct (Z.ltb_spec cp 65536); [reflexivity|lia].
  - pose proof (utf8_decode_utf8 cp ltac:(lia) Hs) as Hdec.
    unfold escapes. revert Hdec. unfold utf8.
    destruct (Z.ltb_spec cp 128); [lia|].
    assert (0 <= cp mod 64 < 64) by divmod.
    assert (0 <= (cp / 64) mod 64 < 64) by divmod.
    assert (0 <= (cp / 4096) mod 64 < 64) by divmod.
    destruct (Z.ltb_spec cp 2048); [|destruct (Z.ltb_spec cp 65536)]; intros Hdec;
      cbn [mbind list_bind]; rewrite app_nil_r, <- ?app_assoc.
    + rewrite decode_2 by divmod. rewrite Hdec. reflexivity.
    + rewrite decode_3 by divmod. rewrite Hdec. reflexivity.
    + rewrite decode_4 by divmod. rewrite Hdec. reflexivity.
Qed.

Lemma utf16_code_point (c c2 : Z) :
  is_lead c = true -> is_trail c2 = true ->
  utf16 (code_point c c2) = [c; c2]
  /\ 65536 <= code_point c c2 < 1114112.
Proof.
  unfold is_lead, is_trail, utf16, code_point. intros Hc Hc2.
  apply andb_true_iff in Hc as [Hc Hc']. apply andb_true_iff in Hc2 as [Hc2 Hc2'].
  apply Z.leb_le in Hc, Hc', Hc2, Hc2'.
  destruct (Z.ltb_spec ((c - 55296) * 1024 + (c2 - 56320) + 65536) 65536); [lia|].
  split; [|lia]. f_equal; [|f_equal]; divmod.
Qed.

Lemma escapes_unescaped (cp : Z) :
  0 <= cp < 1114112 ->
  Forall (fun c => unescaped c = true \/ c = percent) (escapes cp).
Proof.
  intros Hcp.
  assert (Hesc : forall b, 0 <= b < 256 ->
            Forall (fun c => unescaped c = true \/ c = percent) (escape b)).
  { intros b Hb. unfold escape.
    apply Forall_cons_2; [right; reflexivity|].
    apply Forall_cons_2; [left; apply hex_digit_unescaped; divmod|].
    apply Forall_cons_2; [left; apply hex_digit_unescaped; divmod|].
    apply Forall_nil_2. }
  assert (0 <= cp mod 64 < 64) by divmod.
  assert (0 <= (cp / 64) mod 64 < 64) by divmod.
  assert (0 <= (cp / 4096) mod 64 < 64) by divmod.
  unfold escapes, utf8.
  destruct (Z.ltb_spec cp 128); [|destruct (Z.ltb_spec cp 2048);
                                   [|destruct (Z.ltb_spec cp 65536)]];
    cbn [mbind list_bind]; repeat apply Forall_app_2;
    try apply Forall_nil_2; apply Hesc; divmod.
Qed.

Lemma not_surrogate (c : Z) :
  is_lead c = false -> is_trail c = false -> ~ (55296 <= c <= 57343).
Proof.
  unfold is_lead, is_trail. lia.
Qed.

Lemma is_unit_range (c : Z) : is_unit c = true -> 0 <= c < 65536.
Proof. unfold is_unit. lia. Qed.

Lemma utf16_unit (c : Z) : c < 65536 -> utf16 c = [c].
Proof. intros Hc. unfold utf16. destruct (Z.ltb_spec c 65536); [reflexivity|lia]. Qed.

(** What [encodeURIComponent] does on a well-formed string: it returns,
    [decodeURIComponent] takes the result back to the string, and the
    result holds unescaped characters and percent signs only. *)
Lemma encode_well_formed (n : nat) :
  forall s, (length s <= n)%nat -> well_formed s = true ->
  exists e, encodeURIComponent s = Some e
            /\ decodeURIComponent e = Some s
            /\ Forall (fun c => unescaped c = true \/ c = percent) e.
Proof.
  induction n as [|n IH]; intros [|c s] Hlen Hwf; cbn [length] in Hlen;
    try lia; try (exists []; repeat split; constructor).
  cbn [encodeURIComponent well_formed] in *.
  destruct (unescaped c) eqn:Hu.
  { destruct (unescaped_unit c Hu) as (Hp & _ & _ & _ & _ & Hl & _).
    rewrite Hl in Hwf. apply andb_true_iff in Hwf as [_ Hwf].
    destruct (IH s ltac:(lia) Hwf) as (e & -> & Hd & Ha).
    exists (c :: e). split; [reflexivity|]. split.
    - rewrite decode_plain, Hd by exact Hp. reflexivity.
    - constructor; [left; exact Hu|exact Ha]. }
  destruct (is_lead c) eqn:Hl.
  { destruct s as [|c2 s]; [discriminate|].
    apply andb_true_iff in Hwf as [Ht Hwf]. rewrite Ht.
    cbn [length] in Hlen.
    destruct (IH s ltac:(lia) Hwf) as (e & -> & Hd & Ha).
    destruct (utf16_code_point c c2 Hl Ht) as [H16 Hcp].
    exists (escapes (code_point c c2) ++ e). split; [reflexivity|]. split.
    - rewrite decode_escapes, Hd, H16 by lia. reflexivity.
    - apply Forall_app_2; [apply escapes_unescaped; lia|exact Ha]. }
  apply andb_true_iff in Hwf as [Hwf Hs].
  apply andb_true_iff in Hwf as [Hc Ht]. apply negb_true_iff in Ht. rewrite Ht.
  apply is_unit_range in Hc.
  destruct (IH s ltac:(lia) Hs) as (e & -> & Hd & Ha).
  exists (escapes c ++ e). split; [reflexivity|]. split.
  - rewrite decode_escapes, Hd, utf16_unit;
      [reflexivity|lia|lia|apply not_surrogate; assumption].
  - apply Forall_app_2; [apply escapes_unescaped; lia|exact Ha].
Qed.

(** [encodeURIComponent] returns on well-formed strings only. *)
Lemma encode_returns (n : nat) :
  forall s e, (length s <= n)%nat -> Forall (fun c => is_unit c = true) s ->
  encodeURIComponent s = Some e -> well_formed s = true.
Proof.
  induction n as [|n IH]; intros [|c s] e Hlen Hall He; cbn [length] in Hlen;
    try lia; try reflexivity.
  apply Forall_cons in Hall as [Hc Hall].
  cbn [encodeURIComponent well_formed] in *.
  destruct (unescaped c) eqn:Hu.
  { destruct (unescaped_unit c Hu) as (_ & _ & _ & _ & _ & Hl & Ht).
    rewrite Hl, Hc, Ht. cbn [andb negb].
    destruct (encodeURIComponent s) as [e'|] eqn:He'; [|discriminate].
    eapply (IH s); [lia|exact Hall|exact He']. }
  destruct (is_lead c) eqn:Hl.
  { destruct s as [|c2 s]; [discriminate|].
    apply Forall_cons in Hall as [Hc2 Hall]. cbn [length] in Hlen.
    destruct (is_trail c2); [|discriminate]. cbn [andb].
    destruct (encodeURIComponent s) as [e'|] eqn:He'; [|discriminate].
    eapply (IH s); [lia|exact Hall|exact He']. }
  destruct (is_trail c); [discriminate|]. rewrite Hc. cbn [andb negb].
  destruct (encodeURIComponent s) as [e'|] eqn:He'; [|discriminate].
  eapply (IH s); [lia|exact Hall|exact He'].
Qed.

End Percent.

(** * The parts of the hash *)

Section Hash.

Import Str URI.
Local Open Scope Z_scope.

Lemma parse_part_pair (params : JSObject) (k v : list Z) :
  equals ∉ k -> equals ∉ v ->
  parse_part params (k ++ equals :: v)
  = key ← decodeURIComponent k; value ← decodeURIComponent v;
    Some (obj_set params key value).
Proof.
  intros Hk Hv. unfold parse_part.
  rewrite split_app, (split_no_sep _ _ Hk), (split_no_sep _ _ Hv). reflexivity.
Qed.

Lemma parse_part_skip (params : JSObject) (part : list Z) :
  two_fields part = false -> parse_part params part = Some params.
Proof.
  unfold two_fields, parse_part. intros H. apply bool_decide_eq_false in H.
  destruct (split equals part) as [|a [|b [|c l]]]; try reflexivity.
  contradiction H. reflexivity.
Qed.

Lemma forEach_app (a b : list (list Z)) (params : JSObject) :
  forEach (a ++ b) params = params' ← forEach a params; forEach b params'.
Proof.
  revert params. induction a as [|p a IH]; intros params; [reflexivity|].
  cbn [app forEach]. destruct (parse_part params p) as [params'|]; [|reflexivity].
  cbn. apply IH.
Qed.

Lemma forEach_filter (parts : list (list Z)) (params : JSObject) :
  forEach (filter (fun p => two_fields p = true) parts) params
  = forEach parts params.
Proof.
  revert params. induction parts as [|p parts IH]; intros params; [reflexivity|].
  rewrite filter_cons. destruct (two_fields p) eqn:Hp.
  - rewrite decide_True by reflexivity. cbn [forEach].
    destruct (parse_part params p); [|reflexivity]. cbn. apply IH.
  - rewrite decide_False by discriminate. cbn [forEach].
    rewrite (parse_part_skip _ _ Hp). cbn. apply IH.
Qed.

(** Whatever the first character, [parseHash] works on the parts of
    the rest. *)
Lemma parseHash_parts (c : Z) (hash : list Z) :
  parseHash (c :: hash) = forEach (split amp hash) ∅.
Proof.
  unfold parseHash, substring_1. cbn [drop].
  destruct hash; reflexivity.
Qed.

Lemma parseHash_join (c : Z) (parts : list (list Z)) :
  Forall (fun part => amp ∉ part) parts ->
  parseHash (c :: join amp parts) = forEach parts ∅.
Proof.
  intros Hparts. rewrite parseHash_parts.
  destruct parts as [|p parts]; [reflexivity|].
  rewrite split_join; [reflexivity|discriminate|exact Hparts].
Qed.

Lemma forEach_proto (parts : list (list Z)) :
  forall params params',
    params !! lit "__proto__" = None ->
    forEach parts params = Some params' ->
    params' !! lit "__proto__" = None.
Proof.
  induction parts as [|p parts IH]; intros params params' H0 Hrun;
    cbn [forEach] in Hrun; [congruence|].
  destruct (parse_part params p) as [params1|] eqn:Hp; [|discriminate].
  cbn in Hrun. apply (IH params1 params'); [|exact Hrun].
  unfold parse_part in Hp.
  destruct (split equals p) as [|a [|b [|x l]]]; try congruence.
  destruct (decodeURIComponent a) as [key|]; [|discriminate].
  destruct (decodeURIComponent b) as [value|]; [|discriminate].
  cbn in Hp. injection Hp as <-. unfold obj_set.
  destruct (bool_decide_reflect (key = lit "__proto__")) as [Hk|Hk]; [exact H0|].
  rewrite lookup_insert_ne by exact Hk. exact H0.
Qed.



(** The pieces that [stringifyHash] joins. *)
Lemma stringify_pieces (entries : list (list Z * list Z)) :
  Forall (fun kv => well_formed kv.1 = true /\ well_formed kv.2 = true) entries ->
  exists pieces,
    mapM (fun '(key, value) =>
            k ← encodeURIComponent key; v ← encodeURIComponent value;
            Some (k ++ equals :: v)) entries = Some pieces
    /\ length pieces = length entries
    /\ Forall (fun piece => amp ∉ piece) pieces
    /\ Forall (fun piece =>
                 length (filter (fun c => c = equals) piece) = 1%nat
                 /\ Forall (fun c => unescaped c = true \/ c = percent
                                     \/ c = equals) piece) pieces
    /\ forall params,
         forEach pieces params
         = Some (foldl (fun obj kv => obj_set obj kv.1 kv.2) params entries).
Proof.
  induction 1 as [|[key value] entries [Hk Hv] Hall IH].
  - exists []. repeat split; constructor.
  - destruct IH as (pieces & Hm & Hlen & Hamp & Heq & Hrun).
    destruct (encode_well_formed _ key (le_n _) Hk) as (k & Hek & Hdk & Hak).
    destruct (encode_well_formed _ value (le_n _) Hv) as (v & Hev & Hdv & Hav).
    assert (Hno : forall x e, x <> percent -> unescaped x = false ->
              Forall (fun c => unescaped c = true \/ c = percent) e -> x ∉ e).
    { intros x e Hx Hu He Hin. rewrite Forall_forall in He.
      destruct (He x Hin) as [H|H]; congruence. }
    assert (Hkamp := Hno amp k ltac:(discriminate) eq_refl Hak).
    assert (Hvamp := Hno amp v ltac:(discriminate) eq_refl Hav).
    assert (Hkeq := Hno equals k ltac:(discriminate) eq_refl Hak).
    assert (Hveq := Hno equals v ltac:(discriminate) eq_refl Hav).
    exists ((k ++ equals :: v) :: pieces). split; [|split; [|split; [|split]]].
    + cbn [mapM]. rewrite Hek, Hev. cbn. rewrite Hm. reflexivity.
    + cbn [length]. rewrite Hlen. reflexivity.
    + constructor; [|exact Hamp].
      rewrite elem_of_app, elem_of_cons. intros [H|[H|H]]; [tauto|discriminate|tauto].
    + constructor; [|exact Heq]. split.
      * rewrite filter_app, filter_cons, decide_True by reflexivity.
        rewrite length_app. cbn [length].
        assert (Hz : forall e, equals ∉ e -> filter (fun c => c = equals) e = []).
        { intros e He. induction e as [|x e IHe]; [reflexivity|].
          apply not_elem_of_cons in He as [Hx He].
          rewrite filter_cons, decide_False by congruence. apply IHe, He. }
        rewrite (Hz k Hkeq), (Hz v Hveq). reflexivity.
      * apply Forall_app_2; [|constructor; [tauto|]];
          (eapply Forall_impl; [eassumption|]); cbn; tauto.
    + intros params. cbn [forEach foldl].
      rewrite parse_part_pair, Hdk, Hdv by assumption. cbn. apply Hrun.
Qed.

Lemma foldl_obj_set (entries : list (list Z * list Z)) :
  NoDup entries.*1 ->
  Forall (fun kv => kv.1 <> lit "__proto__") entries ->
  foldl (fun obj kv => obj_set obj kv.1 kv.2) (∅ : JSObject) entries
  = list_to_map entries.
Proof.
  induction entries as [|[k v] entries IH] using rev_ind; intros Hnd Hall;
    [reflexivity|].
  rewrite fmap_app in Hnd. apply NoDup_app in Hnd as (Hnd & Hk & _).
  apply Forall_app in Hall as [Hall Hkv]. apply Forall_cons in Hkv as [Hkv _].
  rewrite foldl_app. cbn [foldl fst snd]. rewrite (IH Hnd Hall).
  unfold obj_set. rewrite bool_decide_eq_false_2 by exact Hkv.
  symmetry. apply list_to_map_snoc.
  intros Hin. apply (Hk k Hin). cbn. left.
Qed.

Lemma parseHash_proto (location_hash : list Z) (params : JSObject) :
  parseHash location_hash = Some params ->
  params !! lit "__proto__" = None.
Proof.
  destruct location_hash as [|c hash]; [intros [= <-]; apply lookup_empty|].
  rewrite parseHash_parts. apply forEach_proto, lookup_empty.
Qed.

End Hash.

(** * Properties of the evaluator and of the tables *)

Lemma uniform_singleton (key : string) (v dflt : spec_float) :
  uniform {[ key := v ]} key dflt = v.
Proof. unfold uniform. rewrite lookup_singleton_eq. reflexivity. Qed.

Lemma leb_not_gtb (a b : spec_float) :
  Num.leb a b = true -> Num.gtb a b = false.
Proof.
  intros Hle. destruct (Num.gtb a b) eqn:Hgt; [exfalso|reflexivity].
  unfold Num.leb in Hle. unfold Num.gtb, Num.ltb in Hgt.
  destruct (leb_not_nan _ _ Hle) as [Ha Hb].
  apply leb_key in Hle; [|assumption..]. apply ltb_key in Hgt; [|assumption..].
  destruct (Double.key a) as [[a1 a2] a3], (Double.key b) as [[b1 b2] b3].
  unfold Double.lex_le in Hle. unfold Double.lex_lt in Hgt. lia.
Qed.

(** ** The model on concrete inputs *)

(** [-7.5 % 2] is [-1.5]: the remainder has the sign of the dividend. *)
Example rem_keeps_sign :
  Num.rem (Num.of_frac (-75) 10) (Num.of_Z 2) = Num.of_frac (-15) 10.
Proof. vm_compute. reflexivity. Qed.

(** 0.1 stored in a [Float32Array] reads back as 0.10000000149011612. *)
Example fround_tenth :
  Num.fround (Num.of_frac 1 10)
  = Num.of_frac 10000000149011612 100000000000000000.
Proof. vm_compute. reflexivity. Qed.

(** [Math.max] and [Math.min] on zeros and [NaN]. *)
Example max_min_corner_cases :
  Num.max (S754_zero true) Num.pzero = Num.pzero
  /\ Num.min3 Num.pzero (S754_zero true) Num.pzero = S754_zero true
  /\ Num.max (Num.of_Z 3) Num.NaN = Num.NaN.
Proof. repeat split. Qed.

(** At the point (0, 0, 5), with the default uniforms and the time 0, the
    loop makes eight iterations and returns 0.33890047669410706. *)
Example reference_point :
  getPlanet1Distance RefMath.lib 7 [Num.pzero; Num.pzero; Num.of_Z 5] ∅
    Num.pzero scratch_init = None
  /\ fst <$> getPlanet1Distance RefMath.lib 8 [Num.pzero; Num.pzero; Num.of_Z 5]
               ∅ Num.pzero scratch_init
     = Some (Num.of_frac 33890047669410706 100000000000000000).
Proof. split; vm_compute; reflexivity. Qed.

(** ** Termination *)

(** C1, counterexample: with the scale 1 the lattice size stays at 58 and
    the evaluator never returns, whatever the number of iterations
    allowed: the loop has no iteration cap. *)
Lemma scale_one_never_returns :
  ~ terminates RefMath.lib [Num.pzero; Num.pzero; Num.pzero]
      {[ "slider_fractalScale" := Lit.c1_0 ]} Num.pzero scratch_init.
Proof.
  intros [fuel [r H]]. rewrite getPlanet1Distance_never in H.
  - discriminate.
  - rewrite uniform_singleton. split; reflexivity.
Qed.

(** C1, amended: for a scale that is zero or negative the evaluator
    stops after exactly one iteration and returns the [d] accumulated by
    it; the loop has no iteration cap, and for every scale of 1 or more
    it never stops. *)
Theorem no_iteration_cap (M : MathLib) (p_vec : list spec_float)
    (uniforms : gmap string spec_float) (t : spec_float) (sc : Scratch) :
  (Num.leb (uniform uniforms "slider_fractalScale" Lit.c0_37) Num.pzero = true ->
   getPlanet1Distance M 0 p_vec uniforms t sc = None
   /\ exists st,
        st = iteration M (uniform uniforms "slider_fractalScale" Lit.c0_37)
               (uniform uniforms "slider_fractalRotation" Lit.c1_09)
               (uniform uniforms "slider_fractalPulseStrength" Lit.c0_0) t
               (enter p_vec sc)
        /\ getPlanet1Distance M 1 p_vec uniforms t sc = Some (d st, scratch st))
  /\ (expanding (uniform uniforms "slider_fractalScale" Lit.c0_37) ->
      forall fuel, getPlanet1Distance M fuel p_vec uniforms t sc = None).
Proof.
  split.
  - intros Hs. split; [reflexivity|].
    apply getPlanet1Distance_once. apply leb_not_gtb. exact Hs.
  - intros Hs fuel. apply getPlanet1Distance_never. exact Hs.
Qed.

(** The theorem at the scales -1 and 2. *)
Lemma no_iteration_cap_witness :
  (getPlanet1Distance RefMath.lib 0 [Num.pzero; Num.pzero; Num.of_Z 5]
     {[ "slider_fractalScale" := Num.of_Z (-1) ]} Num.pzero scratch_init = None
   /\ exists st,
        st = iteration RefMath.lib
               (uniform {[ "slider_fractalScale" := Num.of_Z (-1) ]}
                  "slider_fractalScale" Lit.c0_37)
               (uniform {[ "slider_fractalScale" := Num.of_Z (-1) ]}
                  "slider_fractalRotation" Lit.c1_09)
               (uniform {[ "slider_fractalScale" := Num.of_Z (-1) ]}
                  "slider_fractalPulseStrength" Lit.c0_0) Num.pzero
               (enter [Num.pzero; Num.pzero; Num.of_Z 5] scratch_init)
        /\ getPlanet1Distance RefMath.lib 1 [Num.pzero; Num.pzero; Num.of_Z 5]
             {[ "slider_fractalScale" := Num.of_Z (-1) ]} Num.pzero scratch_init
           = Some (d st, scratch st))
  /\ (forall fuel,
        getPlanet1Distance RefMath.lib fuel [Num.pzero; Num.pzero; Num.of_Z 5]
          {[ "slider_fractalScale" := Num.of_Z 2 ]} Num.pzero scratch_init = None).
Proof.
  split.
  - apply (proj1 (no_iteration_cap RefMath.lib [Num.pzero; Num.pzero; Num.of_Z 5]
                    {[ "slider_fractalScale" := Num.of_Z (-1) ]} Num.pzero
                    scratch_init)).
    rewrite uniform_singleton. reflexivity.
  - apply (proj2 (no_iteration_cap RefMath.lib [Num.pzero; Num.pzero; Num.of_Z 5]
                    {[ "slider_fractalScale" := Num.of_Z 2 ]} Num.pzero
                    scratch_init)).
    rewrite uniform_singleton. split; reflexivity.
Defined.

(** C4, counterexample: with the scale 0.0001 the finite point
    (3e38, 0, 3e38) gives the result [NaN] (the rotated x overflows the
    single precision of [temp_q_rot]), which is not a finite number; and
    for the scale 0.977495240923271, for which [58 * scale ^ 310 <= 0.05]
    holds exactly (so that the documented bound is at most 310), the loop
    is still running after 310 iterations. *)
Lemma bound_and_finiteness_fail :
  (contracting (Num.of_frac 1 10000)
   /\ forallb Num.is_finite
        [Num.of_Z (3 * 10 ^ 38); Num.pzero; Num.of_Z (3 * 10 ^ 38)] = true
   /\ fst <$> getPlanet1Distance RefMath.lib 1
                [Num.of_Z (3 * 10 ^ 38); Num.pzero; Num.of_Z (3 * 10 ^ 38)]
                {[ "slider_fractalScale" := Num.of_frac 1 10000 ]} Num.pzero
                scratch_init
      = Some Num.NaN)
  /\ (contracting slow_scale
      /\ real_power_bound slow_scale 310 = true
      /\ getPlanet1Distance RefMath.lib 310 [Num.pzero; Num.pzero; Num.of_Z 5]
           {[ "slider_fractalScale" := slow_scale ]} Num.pzero scratch_init
         = None).
Proof.
  split; [split; [|split]|split; [|split]].
  - repeat split; reflexivity.
  - reflexivity.
  - vm_compute. reflexivity.
  - repeat split; reflexivity.
  - apply real_power_bound_ceiling. vm_compute. reflexivity.
  - apply getPlanet1Distance_running. rewrite uniform_singleton.
    vm_compute. reflexivity.
Qed.

(** C4, amended: whenever the resolved scale is a double strictly between
    0 and 1, [getPlanet1Distance] returns after finitely many iterations
    (the lattice size strictly decreases at each one), for every point,
    every time and every content of the scratch buffers. *)
Theorem contracting_scale_terminates (M : MathLib) (p_vec : list spec_float)
    (uniforms : gmap string spec_float) (t : spec_float) (sc : Scratch) :
  contracting (uniform uniforms "slider_fractalScale" Lit.c0_37) ->
  terminates M p_vec uniforms t sc.
Proof.
  intros Hs.
  destruct (getPlanet1Distance_stops M p_vec uniforms t sc Hs) as (fuel & r & sc' & H).
  exists fuel. rewrite H. eauto.
Qed.

(** The theorem at the default uniforms. *)
Lemma contracting_scale_terminates_witness :
  terminates RefMath.lib [Num.pzero; Num.pzero; Num.of_Z 5] ∅ Num.pzero scratch_init.
Proof.
  apply contracting_scale_terminates. repeat split; reflexivity.
Defined.

(** ** The fold *)

(** C2, counterexample: the component 0 (the origin in the first
    iteration) folds to the lattice size 58 itself, which is not strictly
    below it; an infinite component folds to [NaN]; and so does every
    component once the doubled size [2 ^ 1023 + 2 ^ 1023] overflows. *)
Lemma fold_reaches_the_size :
  (fold_abs Num.pzero Lit.c58_0 = Lit.c58_0
   /\ Num.ltb (fold_abs Num.pzero Lit.c58_0) Lit.c58_0 = false)
  /\ fold_abs Num.pinf Lit.c58_0 = Num.NaN
  /\ fold_abs Num.pzero (Num.of_Z (2 ^ 1023)) = Num.NaN.
Proof. repeat split; vm_compute; reflexivity. Qed.

(** C2, amended: for every finite component [v] and every lattice size
    [size] with [0 < size <= 2 ^ 1021], the fold of lines 98 to 112 yields
    a number of the closed interval from 0 to [size]. *)
Theorem fold_abs_within_size (v size : spec_float) :
  Double.valid v -> Num.is_finite v = true ->
  Double.valid size -> Num.ltb Num.pzero size = true ->
  Num.leb size Double.large = true ->
  Num.leb Num.pzero (fold_abs v size) = true
  /\ Num.leb (fold_abs v size) size = true.
Proof. apply fold_abs_range. Qed.

(** The theorem at the component -7.5 and the size 58. *)
Lemma fold_abs_within_size_witness :
  Num.leb Num.pzero (fold_abs (Num.of_frac (-75) 10) Lit.c58_0) = true
  /\ Num.leb (fold_abs (Num.of_frac (-75) 10) Lit.c58_0) Lit.c58_0 = true.
Proof. apply fold_abs_within_size; reflexivity. Defined.

(** ** The algorithm of section 4.1 *)

(** C3, counterexample: on the point (0, 0.1, 0), with the scale 0.0001
    and the time 0, the algorithm of section 4.1 computed on numbers as
    they are returns -0.1, and [getPlanet1Distance], which keeps [q] in
    single precision, returns -0.10000000149011612. *)
Lemma double_precision_algorithm_differs :
  fst <$> getPlanet1Distance RefMath.lib 1
            [Num.pzero; Num.of_frac 1 10; Num.pzero]
            {[ "slider_fractalScale" := Num.of_frac 1 10000 ]} Num.pzero
            scratch_init
  ≠ DistanceField.distance RefMath.lib (fun x => x) 1
      (point_of [Num.pzero; Num.of_frac 1 10; Num.pzero])
      (params_of {[ "slider_fractalScale" := Num.of_frac 1 10000 ]}) Num.pzero.
Proof. intros H. vm_compute in H. discriminate H. Qed.

(** C3, amended: [getPlanet1Distance] computes the iteration of section
    4.1 with every component of [q] rounded to single precision when it
    is stored (the copy of [p], the rotated point, the new [q]); [d]
    starts from the negated stored y.  This holds for every amount of
    fuel, so the two stop together. *)
Theorem getPlanet1Distance_follows_section_4_1 (M : MathLib) (fuel : nat)
    (p_vec : list spec_float) (uniforms : gmap string spec_float)
    (t : spec_float) (sc : Scratch) :
  Double.valid t ->
  fst <$> getPlanet1Distance M fuel p_vec uniforms t sc
  = DistanceField.distance M Num.fround fuel (point_of p_vec)
      (params_of uniforms) t.
Proof. apply getPlanet1Distance_is_distance. Qed.

(** The theorem at the point (0, 0, 5), the default uniforms and the
    time 0. *)
Lemma getPlanet1Distance_follows_section_4_1_witness :
  fst <$> getPlanet1Distance RefMath.lib 8 [Num.pzero; Num.pzero; Num.of_Z 5]
            ∅ Num.pzero scratch_init
  = DistanceField.distance RefMath.lib Num.fround 8
      (point_of [Num.pzero; Num.pzero; Num.of_Z 5]) (params_of ∅) Num.pzero.
Proof. apply getPlanet1Distance_follows_section_4_1. reflexivity. Defined.

(** ** The accumulator *)

(** C10, counterexample: on the point (0, 0.1, 0) with the scale 0.0001
    the result is -0.10000000149011612, the negation of 0.1 rounded to
    single precision, which is below -0.1; and on the point (0, NaN, 0)
    the result is [NaN], which is not at least anything. *)
Lemma result_below_minus_py :
  contracting (Num.of_frac 1 10000)
  /\ (fst <$> getPlanet1Distance RefMath.lib 1
                [Num.pzero; Num.of_frac 1 10; Num.pzero]
                {[ "slider_fractalScale" := Num.of_frac 1 10000 ]} Num.pzero
                scratch_init
      = Some (Num.neg (Num.fround (Num.of_frac 1 10)))
      /\ Num.geb (Num.neg (Num.fround (Num.of_frac 1 10)))
           (Num.neg (Num.of_frac 1 10)) = false)
  /\ (fst <$> getPlanet1Distance RefMath.lib 1
                [Num.pzero; Num.NaN; Num.pzero]
                {[ "slider_fractalScale" := Num.of_frac 1 10000 ]} Num.pzero
                scratch_init
      = Some Num.NaN
      /\ Num.geb Num.NaN (Num.neg Num.NaN) = false).
Proof.
  split; [repeat split; reflexivity|].
  repeat split; vm_compute; reflexivity.
Qed.

(** C10, amended: whenever the resolved scale is a double strictly
    between 0 and 1, [getPlanet1Distance] returns, and the number it
    returns is [NaN] or at least the negation of the y component as
    [temp_q] stores it (rounded to single precision); that is the
    negation of the y component itself when single precision holds it
    exactly, as in a [Float32Array]. *)
Theorem result_at_least_minus_stored_py (M : MathLib)
    (p_vec : list spec_float) (uniforms : gmap string spec_float)
    (t : spec_float) (sc : Scratch) :
  contracting (uniform uniforms "slider_fractalScale" Lit.c0_37) ->
  (exists fuel r sc',
     getPlanet1Distance M fuel p_vec uniforms t sc = Some (r, sc')
     /\ above (Num.neg (Num.fround (p_get p_vec 1))) r)
  /\ (forall fuel r sc',
        getPlanet1Distance M fuel p_vec uniforms t sc = Some (r, sc') ->
        above (Num.neg (Num.fround (p_get p_vec 1))) r
        /\ (Num.fround (p_get p_vec 1) = p_get p_vec 1 ->
            above (Num.neg (p_get p_vec 1)) r)).
Proof.
  intros Hs. split.
  - destruct (getPlanet1Distance_stops M p_vec uniforms t sc Hs)
      as (fuel & r & sc' & H).
    exists fuel, r, sc'. split; [exact H|].
    eapply getPlanet1Distance_above. exact H.
  - intros fuel r sc' H.
    pose proof (getPlanet1Distance_above M _ _ _ _ _ _ _ H) as Ha.
    split; [exact Ha|]. intros Hy. rewrite Hy in Ha. exact Ha.
Qed.

(** The theorem at the point (0, 0.1, 0) and the default uniforms. *)
Lemma result_at_least_minus_stored_py_witness :
  (exists fuel r sc',
     getPlanet1Distance RefMath.lib fuel [Num.pzero; Num.of_frac 1 10; Num.pzero]
       ∅ Num.pzero scratch_init = Some (r, sc')
     /\ above (Num.neg (Num.fround
                 (p_get [Num.pzero; Num.of_frac 1 10; Num.pzero] 1))) r)
  /\ (forall fuel r sc',
        getPlanet1Distance RefMath.lib fuel
          [Num.pzero; Num.of_frac 1 10; Num.pzero] ∅ Num.pzero scratch_init
        = Some (r, sc') ->
        above (Num.neg (Num.fround
                 (p_get [Num.pzero; Num.of_frac 1 10; Num.pzero] 1))) r
        /\ (Num.fround (p_get [Num.pzero; Num.of_frac 1 10; Num.pzero] 1)
            = p_get [Num.pzero; Num.of_frac 1 10; Num.pzero] 1 ->
            above (Num.neg (p_get [Num.pzero; Num.of_frac 1 10; Num.pzero] 1)) r)).
Proof.
  apply result_at_least_minus_stored_py. repeat split; reflexivity.
Defined.

(** ** The uniforms *)

(** C5: a uniform that is missing from the map gives the same run, for
    every amount of fuel, as the same uniform supplied with its default
    (0.37 for the scale, 1.09 for the rotation, 0.0 for the pulse
    strength); the lookup of a missing key is a value, never an error. *)
Theorem missing_uniform_is_default (M : MathLib) (fuel : nat)
    (p_vec : list spec_float) (uniforms : gmap string spec_float)
    (t : spec_float) (sc : Scratch) :
  getPlanet1Distance M fuel p_vec (delete "slider_fractalScale" uniforms) t sc
  = getPlanet1Distance M fuel p_vec
      (<["slider_fractalScale" := Lit.c0_37]> uniforms) t sc
  /\ getPlanet1Distance M fuel p_vec (delete "slider_fractalRotation" uniforms) t sc
     = getPlanet1Distance M fuel p_vec
         (<["slider_fractalRotation" := Lit.c1_09]> uniforms) t sc
  /\ getPlanet1Distance M fuel p_vec
       (delete "slider_fractalPulseStrength" uniforms) t sc
     = getPlanet1Distance M fuel p_vec
         (<["slider_fractalPulseStrength" := Lit.c0_0]> uniforms) t sc
  /\ getPlanet1Distance M fuel p_vec ∅ t sc
     = getPlanet1Distance M fuel p_vec
         (<["slider_fractalScale" := Lit.c0_37]>
            (<["slider_fractalRotation" := Lit.c1_09]>
               (<["slider_fractalPulseStrength" := Lit.c0_0]> ∅))) t sc.
Proof.
  unfold getPlanet1Distance, uniform.
  repeat split; simplify_map_eq; reflexivity.
Qed.

(** ** Independence of earlier calls *)

(** C6: the run of [getPlanet1Distance] on given arguments (the number
    returned, the buffers left behind, and whether the loop stops within
    the fuel) is the same whatever the two scratch buffers held before
    the call: the result is a function of [p_vec], [uniforms] and [t]
    alone. *)
Theorem result_independent_of_scratch (M : MathLib) (fuel : nat)
    (p_vec : list spec_float) (uniforms : gmap string spec_float)
    (t : spec_float) (before before' : Scratch) :
  getPlanet1Distance M fuel p_vec uniforms t before
  = getPlanet1Distance M fuel p_vec uniforms t before'.
Proof. apply scratch_irrelevant. Qed.

(** ** The modulation tables *)

(** C8: the continuous targets of the enabled bindings of
    [defaultSoundConfig.modulations] are drone.filter, atmosphere.gain,
    drone.pitch, arp.speed and arp.octaves, and each has an entry in
    [MOD_RANGES], whatever entries follow the ones the file shows; and a
    binding whose target has no entry in the range table contributes
    [+0]. *)
Theorem default_targets_have_ranges (rest : list (string * spec_float)) :
  mod_target <$>
    filter (fun b => mod_enabled b = true
                     ∧ continuous_target (mod_target b) = true)
           defaultSoundConfig_modulations
  = ["drone.filter"; "atmosphere.gain"; "drone.pitch"; "arp.speed"; "arp.octaves"]
  /\ Forall (fun b => mod_enabled b = true ->
                      continuous_target (mod_target b) = true ->
                      is_Some (MOD_RANGES rest !! mod_target b))
            defaultSoundConfig_modulations
  /\ (forall (ranges normalized : gmap string spec_float) (b : Modulation),
        ranges !! mod_target b = None ->
        ModulationRouter.contribution ranges normalized b = Num.pzero).
Proof.
  split; [reflexivity|]. split.
  - repeat constructor; cbn [mod_enabled mod_target]; intros _ Hc;
      try discriminate Hc;
      apply MOD_RANGES_shown_is_Some; cbn; set_solver.
  - intros ranges normalized b Hr. unfold ModulationRouter.contribution.
    rewrite Hr. destruct (normalized !! mod_source b); reflexivity.
Qed.



(** * Further properties of the code *)

(** ** The loop of [getPlanet1Distance] *)

Lemma getPlanet1Distance_returns (M : MathLib) (fuel : nat)
    (p_vec : list spec_float) (uniforms : gmap string spec_float)
    (t : spec_float) (sc : Scratch) :
  is_Some (getPlanet1Distance M fuel p_vec uniforms t sc)
  <-> is_Some (lattice_steps fuel (uniform uniforms "slider_fractalScale" Lit.c0_37)
                 Lit.c58_0).
Proof.
  rewrite <- (iterations_lattice M _
                (uniform uniforms "slider_fractalRotation" Lit.c1_09)
                (uniform uniforms "slider_fractalPulseStrength" Lit.c0_0) t fuel
                (enter p_vec sc)).
  rewrite <- !not_eq_None_Some, <- while_loop_iterations.
  unfold getPlanet1Distance.
  destruct (while_loop M fuel _ _ _ t (enter p_vec sc)); cbn; split; congruence.
Qed.

(** X1: how many iterations the loop makes is decided by the resolved
    scale alone.  Two calls with the same scale, whatever their points,
    times, other uniforms, scratch buffers and [Math] functions, return
    within the same numbers of iterations. *)
Theorem iteration_count_is_decided_by_the_scale (M M' : MathLib) (fuel : nat)
    (p_vec p_vec' : list spec_float) (uniforms uniforms' : gmap string spec_float)
    (t t' : spec_float) (sc sc' : Scratch) :
  uniform uniforms "slider_fractalScale" Lit.c0_37
  = uniform uniforms' "slider_fractalScale" Lit.c0_37 ->
  (is_Some (getPlanet1Distance M fuel p_vec uniforms t sc)
   <-> is_Some (getPlanet1Distance M' fuel p_vec' uniforms' t' sc')).
Proof.
  intros Hs. rewrite !getPlanet1Distance_returns, Hs. reflexivity.
Qed.

(** The theorem at the scale 0.0001, for the origin at the time 0 and the
    point (0, 0.1, 0) at the time 5 with another rotation. *)
Lemma iteration_count_is_decided_by_the_scale_witness :
  is_Some (getPlanet1Distance RefMath.lib 1 [Num.pzero; Num.pzero; Num.pzero]
             {[ "slider_fractalScale" := Num.of_frac 1 10000 ]} Num.pzero
             scratch_init)
  <-> is_Some (getPlanet1Distance RefMath.lib 1
                 [Num.pzero; Num.of_frac 1 10; Num.pzero]
                 (<[ "slider_fractalRotation" := Num.of_Z 2 ]>
                    {[ "slider_fractalScale" := Num.of_frac 1 10000 ]})
                 (Num.of_Z 5) scratch_init).
Proof.
  apply iteration_count_is_decided_by_the_scale. reflexivity.
Defined.

(** X2: with the default scale 0.37 the loop makes exactly eight
    iterations, at every point and time and for every rotation and pulse
    strength: seven iterations are not enough and eight are. *)
Theorem default_scale_makes_eight_iterations (M : MathLib)
    (p_vec : list spec_float) (uniforms : gmap string spec_float)
    (t : spec_float) (sc : Scratch) :
  uniforms !! "slider_fractalScale" = None ->
  getPlanet1Distance M 7 p_vec uniforms t sc = None
  /\ is_Some (getPlanet1Distance M 8 p_vec uniforms t sc).
Proof.
  intros Hs. split.
  - apply getPlanet1Distance_running. unfold uniform. rewrite Hs.
    vm_compute. reflexivity.
  - apply getPlanet1Distance_returns. unfold uniform. rewrite Hs.
    vm_compute. eauto.
Qed.

(** The theorem at the point (0, 0, 5), with a rotation and no scale
    among the uniforms. *)
Lemma default_scale_makes_eight_iterations_witness :
  getPlanet1Distance RefMath.lib 7 [Num.pzero; Num.pzero; Num.of_Z 5]
    {[ "slider_fractalRotation" := Num.of_Z 2 ]} Num.pzero scratch_init = None
  /\ is_Some (getPlanet1Distance RefMath.lib 8 [Num.pzero; Num.pzero; Num.of_Z 5]
                {[ "slider_fractalRotation" := Num.of_Z 2 ]} Num.pzero
                scratch_init).
Proof.
  apply default_scale_makes_eight_iterations. reflexivity.
Defined.

(** X3: a point without a second coordinate, or with the second
    coordinate [NaN], gives the result [NaN] whenever the function
    returns: [d] starts as [NaN] and [Math.max] keeps it. *)
Theorem missing_y_gives_NaN (M : MathLib) (fuel : nat)
    (p_vec : list spec_float) (uniforms : gmap string spec_float)
    (t : spec_float) (sc sc' : Scratch) (r : spec_float) :
  Num.is_nan (p_get p_vec 1) = true ->
  getPlanet1Distance M fuel p_vec uniforms t sc = Some (r, sc') ->
  r = Num.NaN.
Proof.
  intros Hy Hrun. apply getPlanet1Distance_above in Hrun.
  destruct (p_get p_vec 1); try discriminate.
  destruct Hrun as [Hr|Hr]; [exact Hr|].
  destruct r; discriminate.
Qed.

(** The theorem at a point that has one coordinate only. *)
Lemma missing_y_gives_NaN_witness :
  fst <$> getPlanet1Distance RefMath.lib 1 [Num.of_Z 5]
            {[ "slider_fractalScale" := Num.of_frac 1 10000 ]} Num.pzero
            scratch_init
  = Some Num.NaN.
Proof.
  destruct (getPlanet1Distance RefMath.lib 1 [Num.of_Z 5]
              {[ "slider_fractalScale" := Num.of_frac 1 10000 ]} Num.pzero
              scratch_init) as [[r sc']|] eqn:Hrun.
  - rewrite (missing_y_gives_NaN RefMath.lib 1 [Num.of_Z 5] _ _ _ _ r eq_refl Hrun).
    reflexivity.
  - vm_compute in Hrun. discriminate Hrun.
Defined.

(** X4: a scale that is zero, negative or [NaN] is not looked at beyond
    its sign: the one iteration the loop makes computes [d] and the
    buffers from the lattice size 58, so that any two such scales give the
    same result and the same buffers. *)
Theorem nonpositive_scales_agree (M : MathLib) (p_vec : list spec_float)
    (uniforms : gmap string spec_float) (t : spec_float) (sc : Scratch)
    (scale scale' : spec_float) :
  Num.gtb scale Num.pzero = false -> Num.gtb scale' Num.pzero = false ->
  is_Some (getPlanet1Distance M 1 p_vec
             (<[ "slider_fractalScale" := scale ]> uniforms) t sc)
  /\ getPlanet1Distance M 1 p_vec (<[ "slider_fractalScale" := scale ]> uniforms) t sc
     = getPlanet1Distance M 1 p_vec
         (<[ "slider_fractalScale" := scale' ]> uniforms) t sc.
Proof.
  intros Hs Hs'.
  destruct (getPlanet1Distance_once M p_vec
              (<[ "slider_fractalScale" := scale ]> uniforms) t sc)
    as (st & Hst & Hrun).
  { unfold uniform. rewrite lookup_insert_eq. exact Hs. }
  destruct (getPlanet1Distance_once M p_vec
              (<[ "slider_fractalScale" := scale' ]> uniforms) t sc)
    as (st' & Hst' & Hrun').
  { unfold uniform. rewrite lookup_insert_eq. exact Hs'. }
  rewrite Hrun, Hrun'. split; [eauto|].
  subst st st'. unfold uniform.
  rewrite !lookup_insert_eq, !lookup_insert_ne by (intros H; discriminate H).
  reflexivity.
Qed.

(** The theorem at the scales -1 and [NaN]. *)
Lemma nonpositive_scales_agree_witness :
  is_Some (getPlanet1Distance RefMath.lib 1 [Num.pzero; Num.pzero; Num.of_Z 5]
             (<[ "slider_fractalScale" := Num.of_Z (-1) ]> ∅) Num.pzero
             scratch_init)
  /\ getPlanet1Distance RefMath.lib 1 [Num.pzero; Num.pzero; Num.of_Z 5]
       (<[ "slider_fractalScale" := Num.of_Z (-1) ]> ∅) Num.pzero scratch_init
     = getPlanet1Distance RefMath.lib 1 [Num.pzero; Num.pzero; Num.of_Z 5]
         (<[ "slider_fractalScale" := Num.NaN ]> ∅) Num.pzero scratch_init.
Proof.
  apply nonpositive_scales_agree; reflexivity.
Defined.

(** X5: only the first three elements of [p_vec] are read: a longer
    array gives the same result and the same buffers as its first three
    elements. *)
Theorem only_three_coordinates_are_read (M : MathLib) (fuel : nat)
    (p_vec : list spec_float) (uniforms : gmap string spec_float)
    (t : spec_float) (sc : Scratch) :
  getPlanet1Distance M fuel (take 3 p_vec) uniforms t sc
  = getPlanet1Distance M fuel p_vec uniforms t sc.
Proof.
  unfold getPlanet1Distance, enter, p_get.
  rewrite !lookup_take_lt by lia. reflexivity.
Qed.

(** X6: no uniform other than the three sliders is read: setting any
    other key changes neither the result nor the buffers. *)
Theorem other_uniforms_are_ignored (M : MathLib) (fuel : nat)
    (p_vec : list spec_float) (uniforms : gmap string spec_float)
    (t : spec_float) (sc : Scratch) (key : string) (value : spec_float) :
  key ∉ ["slider_fractalScale"; "slider_fractalRotation";
         "slider_fractalPulseStrength"] ->
  getPlanet1Distance M fuel p_vec (<[ key := value ]> uniforms) t sc
  = getPlanet1Distance M fuel p_vec uniforms t sc.
Proof.
  intros Hkey. apply not_elem_of_cons in Hkey as [H1 Hkey].
  apply not_elem_of_cons in Hkey as [H2 Hkey].
  apply not_elem_of_cons in Hkey as [H3 _].
  unfold getPlanet1Distance, uniform.
  rewrite !lookup_insert_ne by assumption. reflexivity.
Qed.

(** The theorem at the uniform [u_time]. *)
Lemma other_uniforms_are_ignored_witness :
  getPlanet1Distance RefMath.lib 8 [Num.pzero; Num.pzero; Num.of_Z 5]
    (<[ "u_time" := Num.of_Z 7 ]> ∅) Num.pzero scratch_init
  = getPlanet1Distance RefMath.lib 8 [Num.pzero; Num.pzero; Num.of_Z 5]
      ∅ Num.pzero scratch_init.
Proof.
  apply other_uniforms_are_ignored. apply (bool_decide_unpack _).
  vm_compute. reflexivity.
Defined.

(** ** The location hash *)

(** X7: [stringifyHash] followed by [parseHash] gives the object back.
    For the entries of an object whose keys and values are well-formed
    strings and which has no own property [__proto__], [stringifyHash]
    returns a string, and [parseHash], on that string behind a [#],
    returns the object of these entries. *)
Theorem stringifyHash_then_parseHash (entries : list (list Z * list Z)) :
  NoDup entries.*1 ->
  Forall (fun kv => Str.well_formed kv.1 = true /\ Str.well_formed kv.2 = true)
         entries ->
  Forall (fun kv => kv.1 <> Str.lit "__proto__") entries ->
  exists s, stringifyHash entries = Some s
            /\ parseHash (Str.sharp :: s) = Some (list_to_map entries).
Proof.
  intros Hnd Hwf Hproto.
  destruct (stringify_pieces entries Hwf) as (pieces & Hm & _ & Hamp & _ & Hrun).
  exists (Str.join Str.amp pieces). split.
  - unfold stringifyHash. rewrite Hm. reflexivity.
  - rewrite (parseHash_join _ _ Hamp), Hrun.
    rewrite (foldl_obj_set entries Hnd Hproto). reflexivity.
Qed.

(** The theorem at the object with the properties ["a b": "1&2"] and
    ["é": "="]. *)
Lemma stringifyHash_then_parseHash_witness :
  exists s, stringifyHash [(Str.lit "a b", Str.lit "1&2"); ([233%Z], Str.lit "=")]
            = Some s
            /\ parseHash (Str.sharp :: s)
               = Some (list_to_map
                         [(Str.lit "a b", Str.lit "1&2"); ([233%Z], Str.lit "=")]).
Proof.
  apply stringifyHash_then_parseHash.
  - apply (bool_decide_unpack _). vm_compute. reflexivity.
  - repeat constructor.
  - repeat constructor; discriminate.
Defined.

(** X8: [stringifyHash] throws exactly on a lone surrogate.  On keys and
    values made of UTF-16 code units it returns a string if and only if
    every key and every value is well-formed. *)
Theorem stringifyHash_returns_iff_well_formed (entries : list (list Z * list Z)) :
  Forall (fun kv => Forall (fun c => Str.is_unit c = true) (kv.1 ++ kv.2)) entries ->
  (is_Some (stringifyHash entries)
   <-> Forall (fun kv => Str.well_formed kv.1 = true /\ Str.well_formed kv.2 = true)
         entries).
Proof.
  intros Hunits. split.
  - intros [s Hs]. unfold stringifyHash in Hs.
    destruct (mapM _ entries) as [pieces|] eqn:Hm; [|discriminate]. clear Hs.
    revert pieces Hm. induction Hunits as [|[k v] entries Hkv Hall IH];
      intros pieces Hm; [constructor|].
    cbn [mapM] in Hm. cbn [fst snd] in Hkv. apply Forall_app in Hkv as [Hk Hv].
    destruct (URI.encodeURIComponent k) as [ek|] eqn:Hek; [|discriminate].
    destruct (URI.encodeURIComponent v) as [ev|] eqn:Hev; [|discriminate].
    cbn in Hm. destruct (mapM _ entries) as [pieces'|] eqn:Hm'; [|discriminate].
    constructor; [|eapply IH; reflexivity]. split.
    + eapply encode_returns; [reflexivity|exact Hk|exact Hek].
    + eapply encode_returns; [reflexivity|exact Hv|exact Hev].
  - intros Hwf. destruct (stringify_pieces entries Hwf) as (pieces & Hm & _).
    unfold stringifyHash. rewrite Hm. eauto.
Qed.

(** The theorem at an object whose one value is a lone lead surrogate. *)
Lemma stringifyHash_returns_iff_well_formed_witness :
  is_Some (stringifyHash [(Str.lit "a", [55357%Z])])
  <-> Forall (fun kv => Str.well_formed kv.1 = true /\ Str.well_formed kv.2 = true)
        [(Str.lit "a", [55357%Z])].
Proof.
  apply stringifyHash_returns_iff_well_formed. repeat constructor.
Defined.

(** X9: the shape of what [stringifyHash] returns for well-formed keys
    and values: one [=] for each entry, one [&] between two entries, and
    otherwise only characters that [encodeURIComponent] leaves alone and
    percent signs; in particular no [#]. *)
Theorem stringifyHash_shape (entries : list (list Z * list Z)) (s : list Z) :
  Forall (fun kv => Str.well_formed kv.1 = true /\ Str.well_formed kv.2 = true)
         entries ->
  stringifyHash entries = Some s ->
  length (filter (fun c => c = Str.equals) s) = length entries
  /\ length (filter (fun c => c = Str.amp) s) = Nat.pred (length entries)
  /\ Forall (fun c => URI.unescaped c = true
                      \/ c ∈ [Str.percent; Str.equals; Str.amp]) s.
Proof.
  intros Hwf Hs.
  destruct (stringify_pieces entries Hwf) as (pieces & Hm & Hlen & _ & Heq & _).
  unfold stringifyHash in Hs. rewrite Hm in Hs. injection Hs as <-.
  rewrite <- Hlen. clear Hm Hlen Hwf entries.
  induction Heq as [|p pieces [Hp Ha] Hall IH]; [repeat split; constructor|].
  assert (Hpamp : filter (fun c => c = Str.amp) p = []).
  { clear Hp. induction Ha as [|c p Hc Ha IHp]; [reflexivity|].
    rewrite filter_cons, decide_False; [exact IHp|].
    intros ->. destruct Hc as [Hc|[Hc|Hc]]; discriminate. }
  assert (Hpa : Forall (fun c => URI.unescaped c = true
                                 \/ c ∈ [Str.percent; Str.equals; Str.amp]) p).
  { eapply Forall_impl; [exact Ha|]. cbn. intros c [Hc|[ -> | -> ]]; [tauto| |];
      right; repeat constructor. }
  destruct pieces as [|q pieces].
  - cbn [Str.join length Nat.pred]. rewrite Hp, Hpamp. repeat split. exact Hpa.
  - rewrite join_cons. destruct IH as (IH1 & IH2 & IH3).
    rewrite !filter_app, !filter_cons, decide_False by discriminate.
    rewrite decide_True by reflexivity.
    rewrite !length_app, Hp, Hpamp, IH1. cbn [length Nat.pred] in *.
    rewrite IH2. repeat split.
    apply Forall_app_2; [exact Hpa|]. constructor; [right; repeat constructor|exact IH3].
Qed.

(** The theorem at the entries ["a b": "1&2"] and ["": "="]. *)
Lemma stringifyHash_shape_witness :
  length (filter (fun c => c = Str.equals) (Str.lit "a%20b=1%262&=%3D")) = 2%nat
  /\ length (filter (fun c => c = Str.amp) (Str.lit "a%20b=1%262&=%3D")) = 1%nat
  /\ Forall (fun c => URI.unescaped c = true
                      \/ c ∈ [Str.percent; Str.equals; Str.amp])
            (Str.lit "a%20b=1%262&=%3D").
Proof.
  apply (stringifyHash_shape [(Str.lit "a b", Str.lit "1&2"); ([], Str.lit "=")]).
  - repeat constructor.
  - reflexivity.
Defined.

(** X10: [parseHash] reads only the parts with exactly one [=]: deleting
    every other part from the hash changes neither the object returned nor
    whether [URIError] is thrown. *)
Theorem parseHash_skips_other_parts (c : Z) (hash : list Z) :
  parseHash (c :: hash)
  = parseHash (c :: Str.join Str.amp
                      (filter (fun part => two_fields part = true)
                              (Str.split Str.amp hash))).
Proof.
  rewrite (parseHash_join c (filter _ _)).
  - rewrite forEach_filter. apply parseHash_parts.
  - apply Forall_forall. intros part Hin.
    apply list_elem_of_filter in Hin as [_ Hin].
    revert part Hin. apply Forall_forall, split_pieces_no_sep.
Qed.

(** X11: a part [key=value] at the end of the hash.  [parseHash] parses
    the hash before it, throws if that throws or if the key or the value
    is malformed, and else assigns the decoded value to the decoded key;
    so the last part with a key decides the value of that key. *)
Theorem parseHash_last_part (c : Z) (hash k v : list Z) :
  Str.amp ∉ k -> Str.amp ∉ v -> Str.equals ∉ k -> Str.equals ∉ v ->
  parseHash (c :: hash ++ Str.amp :: k ++ Str.equals :: v)
  = (params ← parseHash (c :: hash);
     key ← URI.decodeURIComponent k;
     value ← URI.decodeURIComponent v;
     Some (obj_set params key value))
  /\ forall params key,
       parseHash (c :: hash ++ Str.amp :: k ++ Str.equals :: v) = Some params ->
       URI.decodeURIComponent k = Some key -> key <> Str.lit "__proto__" ->
       params !! key = URI.decodeURIComponent v.
Proof.
  intros Hka Hva Hke Hve.
  assert (Heq : parseHash (c :: hash ++ Str.amp :: k ++ Str.equals :: v)
                = (params ← parseHash (c :: hash);
                   key ← URI.decodeURIComponent k;
                   value ← URI.decodeURIComponent v;
                   Some (obj_set params key value))).
  { rewrite !parseHash_parts, split_app, forEach_app.
    destruct (forEach (Str.split Str.amp hash) ∅) as [params|]; [|reflexivity].
    cbn [mbind option_bind].
    rewrite split_no_sep.
    - cbn [forEach]. rewrite parse_part_pair by assumption.
      destruct (URI.decodeURIComponent k), (URI.decodeURIComponent v); reflexivity.
    - rewrite elem_of_app, elem_of_cons. intros [H|[H|H]]; [tauto|discriminate|tauto]. }
  split; [exact Heq|].
  intros params key Hrun Hk Hproto. rewrite Heq, Hk in Hrun.
  destruct (parseHash (c :: hash)) as [params0|]; [|discriminate].
  destruct (URI.decodeURIComponent v) as [value|]; [|discriminate].
  cbn in Hrun. injection Hrun as <-. unfold obj_set.
  rewrite bool_decide_eq_false_2 by exact Hproto. apply lookup_insert_eq.
Qed.

(** The theorem at the hash [#a=1&b=2] followed by [&a=%33]. *)
Lemma parseHash_last_part_witness :
  parseHash (Str.sharp :: Str.lit "a=1&b=2" ++ Str.amp :: Str.lit "a"
               ++ Str.equals :: Str.lit "%33")
  = (params ← parseHash (Str.sharp :: Str.lit "a=1&b=2");
     key ← URI.decodeURIComponent (Str.lit "a");
     value ← URI.decodeURIComponent (Str.lit "%33");
     Some (obj_set params key value))
  /\ forall params key,
       parseHash (Str.sharp :: Str.lit "a=1&b=2" ++ Str.amp :: Str.lit "a"
                    ++ Str.equals :: Str.lit "%33") = Some params ->
       URI.decodeURIComponent (Str.lit "a") = Some key ->
       key <> Str.lit "__proto__" ->
       params !! key = URI.decodeURIComponent (Str.lit "%33").
Proof.
  apply parseHash_last_part; apply (bool_decide_unpack _); vm_compute; reflexivity.
Defined.

(** X12: the object that [parseHash] returns never has an own property
    [__proto__], whatever the hash: the assignment to that key is
    ignored. *)
Theorem parseHash_never_sets_proto (location_hash : list Z) (params : JSObject) :
  parseHash location_hash = Some params ->
  params !! Str.lit "__proto__" = None.
Proof. apply parseHash_proto. Qed.

(** The theorem at the hash [#__proto__=x&a=1]. *)
Lemma parseHash_never_sets_proto_witness :
  ({[ Str.lit "a" := Str.lit "1" ]} : JSObject) !! Str.lit "__proto__" = None.
Proof.
  apply (parseHash_never_sets_proto (Str.lit "#__proto__=x&a=1")).
  vm_compute. reflexivity.
Defined.



(** X14: writing back what was read.  If [parseHash] returned an object
    whose keys and values are well-formed, then [stringifyHash] on its
    entries, in whatever order they are enumerated, returns a string, and
    [parseHash] on that string behind a [#] returns the same object. *)
Theorem parseHash_then_stringifyHash (location_hash : list Z)
    (params : JSObject) (entries : list (list Z * list Z)) :
  parseHash location_hash = Some params ->
  entries ≡ₚ map_to_list params ->
  Forall (fun kv => Str.well_formed kv.1 = true /\ Str.well_formed kv.2 = true)
         entries ->
  exists s, stringifyHash entries = Some s
            /\ parseHash (Str.sharp :: s) = Some params.
Proof.
  intros Hparse Hperm Hwf.
  destruct (stringify_pieces entries Hwf) as (pieces & Hm & _ & Hamp & _ & Hrun).
  exists (Str.join Str.amp pieces). split.
  - unfold stringifyHash. rewrite Hm. reflexivity.
  - rewrite (parseHash_join _ _ Hamp), Hrun. f_equal.
    assert (Hnd : NoDup entries.*1).
    { rewrite Hperm. apply NoDup_fst_map_to_list. }
    rewrite foldl_obj_set; [| exact Hnd |].
    + rewrite (list_to_map_proper _ _ Hnd Hperm). apply list_to_map_to_list.
    + apply Forall_forall. intros [k v] Hin Hk.
      change (k = Str.lit "__proto__") in Hk. subst k.
      rewrite Hperm in Hin. apply elem_of_map_to_list in Hin.
      rewrite (parseHash_proto _ _ Hparse) in Hin. discriminate Hin.
Qed.

(** The theorem at the hash [#a=1&%41=x&a=%20]. *)
Lemma parseHash_then_stringifyHash_witness :
  exists s, stringifyHash [(Str.lit "A", Str.lit "x"); (Str.lit "a", Str.lit " ")]
            = Some s
            /\ parseHash (Str.sharp :: s)
               = Some (<[ Str.lit "A" := Str.lit "x" ]>
                         {[ Str.lit "a" := Str.lit " " ]}).
Proof.
  apply (parseHash_then_stringifyHash (Str.lit "#a=1&%41=x&a=%20")).
  - vm_compute. reflexivity.
  - rewrite map_to_list_insert by (vm_compute; reflexivity).
    rewrite map_to_list_singleton. reflexivity.
  - repeat constructor.
Defined.
